(** * partner_alert_bot: the /partner_broadcast command handler

    A shallow embedding of [src/app.py].  Python [str] values are sequences
    of Unicode code points; the handler's effects ([ack], [respond],
    [client.chat_postMessage], [time.sleep], [logger.error]) are recorded,
    in program order, in a list of events; a call may return or raise, and
    [try]/[except] is modelled as such. *)

From Stdlib Require Import NArith String Ascii DecimalString.
From stdpp Require Import base decidable numbers list gmap.

Open Scope N_scope.

(** ** Python strings *)

(** A [str] is a sequence of code points; [len], slicing and [upper] all
    count code points, not bytes. *)
Definition pystr : Type := list N.

(** Literals: an ASCII-only Rocq string, one code point per character. *)
Definition lit (s : string) : pystr := List.map N_of_ascii (list_ascii_of_string s).

(** The escape [\n]. *)
Definition LF : pystr := [10].

(** [str(n)] for a non-negative integer, as used by the f-strings. *)
Definition str_of_nat (n : nat) : pystr :=
  lit (NilEmpty.string_of_uint (Nat.to_uint n)).

(** [sep.join(parts)] *)
Fixpoint join (sep : pystr) (parts : list pystr) : pystr :=
  match parts with
  | [] => []
  | [p] => p
  | p :: rest => p ++ sep ++ join sep rest
  end.

(** [s.startswith(p)] *)
Fixpoint startswith (s p : pystr) {struct p} : bool :=
  match p, s with
  | [], _ => true
  | _ :: _, [] => false
  | b :: p', a :: s' => (a =? b) && startswith s' p'
  end.

(** [str.isspace] on one code point: the characters [str.strip()] removes
    (Unicode White_Space as CPython classifies it). *)
Definition isspace (c : N) : bool :=
  ((0x09 <=? c) && (c <=? 0x0D)) || ((0x1C <=? c) && (c <=? 0x20))
  || (c =? 0x85) || (c =? 0xA0) || (c =? 0x1680)
  || ((0x2000 <=? c) && (c <=? 0x200A))
  || (c =? 0x2028) || (c =? 0x2029) || (c =? 0x202F) || (c =? 0x205F)
  || (c =? 0x3000).

Fixpoint lstrip (s : pystr) : pystr :=
  match s with
  | [] => []
  | c :: s' => if isspace c then lstrip s' else s
  end.

Definition rstrip (s : pystr) : pystr := rev (lstrip (rev s)).

(** [s.strip()] *)
Definition strip (s : pystr) : pystr := rstrip (lstrip s).

(** [s in t] for strings: [sub] occurs in [s] as a contiguous run. *)
Definition contains (s sub : pystr) : Prop :=
  ∃ before after, s = before ++ sub ++ after.

(** ASCII upper-casing of one code point below 128. *)
Definition ascii_upper (c : N) : N :=
  if (0x61 <=? c) && (c <=? 0x7A) then c - 0x20 else c.

(** ** Events, exceptions and the frame *)

(** The observable actions of one invocation. *)
Inductive event : Type :=
| Ack
| Respond (msg : pystr)
| PostMessage (channel text : pystr)
| Sleep (milliseconds : N)
| LogError (msg : pystr).

(** What a failed call raises: an instance of [SlackApiError], or of some
    other subclass of [Exception].  The payload is [str(e)], which the
    handler interpolates into its log line. *)
Inductive exn : Type :=
| SlackApiError (e : pystr)
| OtherException (e : pystr).

(** A call returns a value or raises. *)
Inductive result (A : Type) : Type :=
| Returned (a : A)
| Raised (x : exn).
Arguments Returned {A} a.
Arguments Raised {A} x.

(** The [client] argument, as far as the handler can observe it: what the
    [k]-th call of [chat_postMessage] (counted from 0) does for the given
    channel and text. *)
Definition slack_client : Type := nat → pystr → pystr → result unit.

(** The command payload: [body["user_id"]] and [body.get("text")]. *)
Record command_body : Type := {
  user_id : pystr;
  text_field : option pystr
}.

(** The handler's frame: the locals [sent] and [failed] of the confirmed
    branch, and the events so far. *)
Record frame : Type := {
  sent : nat;
  failed : list pystr;
  trace : list event
}.

Definition frame0 : frame := {| sent := 0; failed := []; trace := [] |}.

(** Statements run in a frame, change it, and return or raise; a raise
    skips the rest of a sequence. *)
Definition M (A : Type) : Type := frame → result A * frame.

#[export] Instance M_ret : MRet M := λ A a f, (Returned a, f).

#[export] Instance M_bind : MBind M := λ A B k c f,
  match c f with
  | (Returned a, f') => k a f'
  | (Raised x, f') => (Raised x, f')
  end.

(** [try: body except ... as e: handler e] *)
Definition try_except {A} (body : M A) (handler : exn → M A) : M A := λ f,
  match body f with
  | (Returned a, f') => (Returned a, f')
  | (Raised x, f') => handler x f'
  end.

Definition emit (e : event) : M unit := λ f,
  (Returned tt, {| sent := sent f; failed := failed f; trace := trace f ++ [e] |}).

(** The collaborators that only act: they return normally. *)
Definition ack : M unit := emit Ack.
Definition respond (msg : pystr) : M unit := emit (Respond msg).
Definition logger_error (msg : pystr) : M unit := emit (LogError msg).
Definition time_sleep (milliseconds : N) : M unit := emit (Sleep milliseconds).

(** [client.chat_postMessage(channel=..., text=...)], the [k]-th call. *)
Definition chat_postMessage (client : slack_client) (k : nat)
    (channel text : pystr) : M unit := λ f,
  (client k channel text,
   {| sent := sent f; failed := failed f;
      trace := trace f ++ [PostMessage channel text] |}).

(** Assignments to the locals. *)
Definition assign_sent (n : nat) : M unit := λ f,
  (Returned tt, {| sent := n; failed := failed f; trace := trace f |}).
Definition assign_failed (l : list pystr) : M unit := λ f,
  (Returned tt, {| sent := sent f; failed := l; trace := trace f |}).
Definition locals : M frame := λ f, (Returned f, f).

(** The messages [respond] was called with, in order. *)
Fixpoint responses (tr : list event) : list pystr :=
  match tr with
  | [] => []
  | Respond m :: tr' => m :: responses tr'
  | _ :: tr' => responses tr'
  end.

(** The [(channel, text)] pairs [chat_postMessage] was called with. *)
Fixpoint send_calls (tr : list event) : list (pystr * pystr) :=
  match tr with
  | [] => []
  | PostMessage c t :: tr' => (c, t) :: send_calls tr'
  | _ :: tr' => send_calls tr'
  end.

(** The number of [time.sleep] calls. *)
Fixpoint sleeps (tr : list event) : nat :=
  match tr with
  | [] => 0%nat
  | Sleep _ :: tr' => S (sleeps tr')
  | _ :: tr' => sleeps tr'
  end.

(** The number of [ack] calls. *)
Fixpoint acks (tr : list event) : nat :=
  match tr with
  | [] => 0%nat
  | Ack :: tr' => S (acks tr')
  | _ :: tr' => acks tr'
  end.

(** The lines [logger.error] was called with, in order. *)
Fixpoint log_errors (tr : list event) : list pystr :=
  match tr with
  | [] => []
  | LogError m :: tr' => m :: log_errors tr'
  | _ :: tr' => log_errors tr'
  end.

(** A trace keeps a pause between consecutive sends when no
    [chat_postMessage] call is made while an earlier call has not yet been
    followed by a [time.sleep].  [pending] tells whether such a call is
    outstanding. *)
Fixpoint paused_from (pending : bool) (tr : list event) : bool :=
  match tr with
  | [] => true
  | PostMessage _ _ :: tr' => negb pending && paused_from true tr'
  | Sleep _ :: tr' => paused_from false tr'
  | _ :: tr' => paused_from pending tr'
  end.

Definition delay_between_sends (tr : list event) : bool := paused_from false tr.

(** ** Message texts *)

(** The source file spells its bullet and its dash as the three code
    points U+00E2 U+20AC U+00A2 and U+00E2 U+20AC U+201D. *)
Definition BULLET : pystr := [0xE2; 0x20AC; 0xA2].
Definition DASH : pystr := [0xE2; 0x20AC; 0x201D].

Definition MSG_NOT_ALLOWED : pystr :=
  lit "You are not allowed to use `/partner_broadcast`.".

Definition MSG_USAGE : pystr :=
  lit "Usage:" ++ LF
  ++ BULLET ++ lit " Preview: `/partner_broadcast Your message here`" ++ LF
  ++ BULLET ++ lit " Confirm: `/partner_broadcast CONFIRM: Your message here`".

Definition MSG_EMPTY_AFTER_CONFIRM : pystr :=
  lit "Your message is empty after the CONFIRM prefix." ++ LF
  ++ lit "Usage: `/partner_broadcast CONFIRM: Your message here`".

Definition MSG_NO_CHANNELS : pystr :=
  lit "No broadcast channels are configured." ++ LF ++ LF
  ++ lit "Ask the maintainer to set BROADCAST_CHANNEL_IDS in the environment "
  ++ lit "to a comma-separated list of channel IDs.".

Definition confirm_prefix : pystr := lit "CONFIRM:".

(** [time.sleep(0.2)], in milliseconds. *)
Definition SLEEP_MS : N := 200.

Close Scope N_scope.

(** ** Module-level configuration *)

Definition COMMA : N := 44%N.

(** [s.split(sep)] for a one-character separator: the pieces between the
    separators, one more than there are separators. *)
Fixpoint split (sep : N) (s : pystr) : list pystr :=
  match s with
  | [] => [[]]
  | c :: s' =>
      if (c =? sep)%N then [] :: split sep s'
      else match split sep s' with
           | [] => [[c]]
           | piece :: pieces => (c :: piece) :: pieces
           end
  end.

(** What the comprehension below keeps of one piece [x]: [x.strip()], if
    that is not empty. *)
Definition kept (x : pystr) : list pystr :=
  match strip x with [] => [] | _ :: _ => [strip x] end.

(** [[x.strip() for x in (value or "").split(",") if x.strip()]], the
    comprehension both lists of identifiers are read with; [value] is
    [os.environ.get(name)]. *)
Definition id_list (value : option pystr) : list pystr :=
  flat_map kept (split COMMA (default [] value)).

(** An identifier as the lists hold them: not empty, no white space at
    either end, no comma. *)
Definition well_formed_id (id : pystr) : Prop :=
  id ≠ [] ∧ strip id = id ∧ COMMA ∉ id.

Module Config.

(** The module-level names bound at import. *)
Record t : Type := {
  SLACK_BOT_TOKEN : pystr;
  SLACK_APP_TOKEN : pystr;
  BROADCAST_CHANNEL_IDS : list pystr;
  ALLOWED_BROADCASTERS : gset pystr
}.

(** The four assignments at the top of the module (the two tokens and
    the two lists), run against [os.environ] as [load_dotenv()] left it.
    [os.environ[name]] raises [KeyError] for a missing name; the error is
    rendered as the missing name.  The construction of the Slack [App]
    that follows them, which may fail on its own, is not part of it. *)
Definition load (environ : gmap pystr pystr) : pystr + t :=
  match environ !! lit "SLACK_BOT_TOKEN" with
  | None => inl (lit "SLACK_BOT_TOKEN")
  | Some bot =>
    match environ !! lit "SLACK_APP_TOKEN" with
    | None => inl (lit "SLACK_APP_TOKEN")
    | Some app =>
        inr {| SLACK_BOT_TOKEN := bot;
               SLACK_APP_TOKEN := app;
               BROADCAST_CHANNEL_IDS :=
                 id_list (environ !! lit "BROADCAST_CHANNEL_IDS");
               ALLOWED_BROADCASTERS :=
                 list_to_set (id_list (environ !! lit "ALLOWED_BROADCASTERS")) |}
    end
  end.

End Config.

(** ** Fixtures for concrete runs *)

(** An excerpt of the Unicode case table: sharp s, dotless i and the
    ligature fi have the upper-case forms "SS", "I" and "FI"; every other
    code point is left alone.  It is only applied to strings made of ASCII
    and these three code points. *)
Definition upper_excerpt (c : N) : list N :=
  if (c =? 0xDF)%N then [0x53; 0x53]%N
  else if (c =? 0x131)%N then [0x49]%N
  else if (c =? 0xFB01)%N then [0x46; 0x49]%N
  else [c].

(** The ligature U+FB01, one code point. *)
Definition LIG_FI : pystr := [0xFB01%N].

Definition cmd (u : string) (t : pystr) : command_body :=
  {| user_id := lit u; text_field := Some t |}.

Definition always_ok : slack_client := λ _ _ _, Returned tt.

(** A client whose calls for channel [c] are rejected by the API. *)
Definition fails_on (c : string) : slack_client :=
  λ _ channel _,
    if decide (channel = lit c) then Raised (SlackApiError (lit "channel_not_found"))
    else Returned tt.

(** A client whose every call fails below the API. *)
Definition always_fails : slack_client :=
  λ _ _ _, Raised (OtherException (lit "timed out")).

Definition two_channels : list pystr := [lit "C1"; lit "C2"].

(** An environment with both tokens, two channels and one allowed user. *)
Definition sample_environ : gmap pystr pystr :=
  list_to_map
    [(lit "SLACK_BOT_TOKEN", lit "xoxb-1");
     (lit "SLACK_APP_TOKEN", lit "xapp-1");
     (lit "BROADCAST_CHANNEL_IDS", lit " C1, C2 ,,");
     (lit "ALLOWED_BROADCASTERS", lit "U2")].

(** An environment with both tokens and no usable list. *)
Definition blank_environ : gmap pystr pystr :=
  list_to_map
    [(lit "SLACK_BOT_TOKEN", lit "xoxb-1");
     (lit "SLACK_APP_TOKEN", lit "xapp-1");
     (lit "ALLOWED_BROADCASTERS", lit " , ")].

(** [ALLOWED_BROADCASTERS = {"U2"}] *)
Definition only_U2 : gset pystr := {[ lit "U2" ]}.

(** ** The handler *)

Section Handler.

(** Module-level configuration, read once from the environment. *)
Variable BROADCAST_CHANNEL_IDS : list pystr.
Variable ALLOWED_BROADCASTERS : gset pystr.

(** The interpreter's Unicode case table is not part of the repository:
    [unicode_upper c] is the full upper-case mapping of a code point
    [c >= 128], a sequence of code points (one to three in the Unicode
    database). *)
Variable unicode_upper : N → list N.

Definition upper_char (c : N) : list N :=
  if (c <? 128)%N then [ascii_upper c] else unicode_upper c.

(** [s.upper()]: every code point is replaced by its mapping. *)
Definition upper (s : pystr) : pystr := flat_map upper_char s.

Definition user_is_allowed (user_id : pystr) : bool :=
  if decide (ALLOWED_BROADCASTERS = ∅) then true
  else bool_decide (user_id ∈ ALLOWED_BROADCASTERS).

(** [(body.get("text") or "").strip()] *)
Definition text_raw (body : command_body) : pystr :=
  strip (default [] (text_field body)).

(** The confirmation check and the message text, as [handle_broadcast]
    computes them from [text_raw]. *)
Definition is_confirm (text_raw : pystr) : bool :=
  startswith (upper text_raw) confirm_prefix.

Definition text (text_raw : pystr) : pystr :=
  if is_confirm text_raw
  then strip (drop (length confirm_prefix) text_raw)
  else text_raw.

Definition channels_summary : pystr := join (lit ", ") BROADCAST_CHANNEL_IDS.

Definition preview_message (text : pystr) : pystr :=
  lit "Preview only " ++ DASH ++ lit " nothing has been sent yet." ++ LF ++ LF
  ++ lit "This message:" ++ LF ++ LF ++ text ++ LF ++ LF
  ++ lit "Would be sent to " ++ str_of_nat (length BROADCAST_CHANNEL_IDS)
  ++ lit " channel(s):" ++ LF
  ++ channels_summary ++ LF ++ LF
  ++ lit "If this looks correct, send:" ++ LF
  ++ lit "`/partner_broadcast CONFIRM: " ++ text ++ lit "`".

Definition summary_message (sent : nat) (failed : list pystr) : pystr :=
  let msg := lit "Broadcast complete. Sent to " ++ str_of_nat sent
             ++ lit " channel(s)." in
  match failed with
  | [] => msg
  | _ :: _ => msg ++ lit " Failed on " ++ str_of_nat (length failed)
              ++ lit " channel(s): " ++ join (lit ", ") failed
  end.

(** The body of the [for] loop, for the [k]-th channel of the list. *)
Definition post_one (client : slack_client) (text : pystr)
    (k : nat) (channel_id : pystr) : M unit :=
  try_except
    (chat_postMessage client k channel_id text;;
     f ← locals; assign_sent (S (sent f));;
     time_sleep SLEEP_MS)
    (λ x, match x with
          | SlackApiError e =>
              logger_error (lit "Failed to post to " ++ channel_id
                            ++ lit ": " ++ e);;
              f ← locals; assign_failed (failed f ++ [channel_id])
          | OtherException e =>
              logger_error (lit "Unexpected error posting to " ++ channel_id
                            ++ lit ": " ++ e);;
              f ← locals; assign_failed (failed f ++ [channel_id])
          end).

(** [for channel_id in channels: ...], the [k]-th call being the next. *)
Fixpoint for_channels (client : slack_client) (text : pystr)
    (k : nat) (channels : list pystr) : M unit :=
  match channels with
  | [] => mret tt
  | channel_id :: rest =>
      post_one client text k channel_id;;
      for_channels client text (S k) rest
  end.

Definition handle_broadcast (body : command_body) (client : slack_client)
    : M unit :=
  ack;;
  if negb (user_is_allowed (user_id body)) then respond MSG_NOT_ALLOWED
  else match text_raw body with
  | [] => respond MSG_USAGE
  | _ :: _ =>
    match text (text_raw body) with
    | [] => respond MSG_EMPTY_AFTER_CONFIRM
    | _ :: _ =>
      match BROADCAST_CHANNEL_IDS with
      | [] => respond MSG_NO_CHANNELS
      | _ :: _ =>
        if negb (is_confirm (text_raw body))
        then respond (preview_message (text (text_raw body)))
        else
          assign_sent 0;;
          assign_failed [];;
          for_channels client (text (text_raw body)) 0 BROADCAST_CHANNEL_IDS;;
          f ← locals;
          respond (summary_message (sent f) (failed f))
      end
    end
  end.

(** One invocation: the handler run in a fresh frame. *)
Definition invoke (body : command_body) (client : slack_client)
    : result unit * frame :=
  handle_broadcast body client frame0.

(** The events of an invocation, and its final locals. *)
Definition events (body : command_body) (client : slack_client) : list event :=
  trace (invoke body client).2.

Definition final (body : command_body) (client : slack_client) : frame :=
  (invoke body client).2.

(** *** Vocabulary of the statements *)

(** The handler returned normally after acknowledging and responding
    with [msg], and did nothing else. *)
Definition replies_only (r : result unit * frame) (msg : pystr) : Prop :=
  r = (Returned tt, {| sent := 0; failed := []; trace := [Ack; Respond msg] |}).

(** An invocation that gets to the [for] loop: the user is allowed, the
    argument carries the marker and a message, and channels are
    configured. *)
Definition confirmed_invocation (body : command_body) : Prop :=
  user_is_allowed (user_id body) = true
  ∧ is_confirm (text_raw body) = true
  ∧ text (text_raw body) ≠ []
  ∧ BROADCAST_CHANNEL_IDS ≠ [].

(** What the [k]-th attempt, on [channel_id], contributes to the trace:
    the call, then the pause if it returned and the log line if it
    raised. *)
Definition attempt_events (client : slack_client) (text : pystr)
    (k : nat) (channel_id : pystr) : list event :=
  PostMessage channel_id text ::
  match client k channel_id text with
  | Returned _ => [Sleep SLEEP_MS]
  | Raised (SlackApiError e) =>
      [LogError (lit "Failed to post to " ++ channel_id ++ lit ": " ++ e)]
  | Raised (OtherException e) =>
      [LogError (lit "Unexpected error posting to " ++ channel_id ++ lit ": " ++ e)]
  end.

(** Strictly sequential attempts on [channels], numbered from [k]. *)
Fixpoint attempts_from (client : slack_client) (text : pystr)
    (k : nat) (channels : list pystr) : list event :=
  match channels with
  | [] => []
  | channel_id :: rest =>
      attempt_events client text k channel_id
      ++ attempts_from client text (S k) rest
  end.

(** The frame one iteration leaves: a send counted, or the channel
    recorded. *)
Definition after_attempt (client : slack_client) (text : pystr)
    (k : nat) (channel_id : pystr) (f : frame) : frame :=
  match client k channel_id text with
  | Returned _ =>
      {| sent := S (sent f); failed := failed f;
         trace := trace f ++ attempt_events client text k channel_id |}
  | Raised _ =>
      {| sent := sent f; failed := failed f ++ [channel_id];
         trace := trace f ++ attempt_events client text k channel_id |}
  end.

(** The frame the loop leaves. *)
Fixpoint after_attempts (client : slack_client) (text : pystr)
    (k : nat) (channels : list pystr) (f : frame) : frame :=
  match channels with
  | [] => f
  | channel_id :: rest =>
      after_attempts client text (S k) rest (after_attempt client text k channel_id f)
  end.

(** The channels whose call raises, in list order, when the calls are
    numbered from [k]. *)
Fixpoint raised_channels (client : slack_client) (text : pystr)
    (k : nat) (channels : list pystr) : list pystr :=
  match channels with
  | [] => []
  | channel_id :: rest =>
      match client k channel_id text with
      | Returned _ => raised_channels client text (S k) rest
      | Raised _ => channel_id :: raised_channels client text (S k) rest
      end
  end.

(** The frame when the loop of a confirmed invocation ends. *)
Definition broadcast (client : slack_client) (text : pystr) : frame :=
  after_attempts client text 0 BROADCAST_CHANNEL_IDS
    {| sent := 0; failed := []; trace := [Ack] |}.

(** ** Strings *)

Lemma contains_refl s : contains s s.
Proof. exists [], []. by rewrite app_nil_r. Qed.

Lemma contains_app_r a s sub : contains s sub → contains (a ++ s) sub.
Proof.
  intros (b & c & ->). exists (a ++ b), c. by rewrite <- app_assoc.
Qed.

Lemma contains_app_l s z sub : contains s sub → contains (s ++ z) sub.
Proof.
  intros (b & c & ->). exists b, (c ++ z). by rewrite <- !app_assoc.
Qed.

Lemma contains_head s z : contains (s ++ z) s.
Proof. apply contains_app_l, contains_refl. Qed.

Lemma contains_head3 a b c z : contains (a ++ b ++ c ++ z) (a ++ b ++ c).
Proof. exists [], z. simpl. by rewrite <- !app_assoc. Qed.

(** Find a part at the head of some tail of a right-nested chain. *)
Ltac find_part :=
  first [ apply contains_head | apply contains_refl
        | apply contains_app_r; find_part ].

Lemma join_contains sep parts p : p ∈ parts → contains (join sep parts) p.
Proof.
  induction parts as [|q [|q' rest] IH]; intros Hp.
  - by apply elem_of_nil in Hp.
  - apply list_elem_of_singleton in Hp as ->. apply contains_refl.
  - apply elem_of_cons in Hp as [->|Hp].
    + apply contains_head.
    + change (join sep (q :: q' :: rest)) with (q ++ sep ++ join sep (q' :: rest)).
      by apply contains_app_r, contains_app_r, IH.
Qed.

Lemma startswith_app p s : startswith (p ++ s) p = true.
Proof. induction p as [|c p IH]; [done|]. simpl. by rewrite N.eqb_refl. Qed.

Lemma startswith_prefix s p : startswith s p = true ↔ ∃ r, s = p ++ r.
Proof.
  split.
  - revert s. induction p as [|c p IH]; intros s H.
    + by exists s.
    + destruct s as [|a s]; [done|]. simpl in H.
      apply andb_true_iff in H as [Hc Hp]. apply N.eqb_eq in Hc as ->.
      destruct (IH _ Hp) as [r ->]. by exists r.
  - intros [r ->]. apply startswith_app.
Qed.

Lemma upper_app a b : upper (a ++ b) = upper a ++ upper b.
Proof. apply flat_map_app. Qed.

Lemma is_confirm_nil : is_confirm [] = false.
Proof. reflexivity. Qed.

Lemma text_not_confirm t : is_confirm t = false → text t = t.
Proof. unfold text. by intros ->. Qed.

Lemma text_confirm t :
  is_confirm t = true → text t = strip (drop 8 t).
Proof. unfold text. by intros ->. Qed.

(** ** Projections of a trace *)

Lemma send_calls_app a b : send_calls (a ++ b) = send_calls a ++ send_calls b.
Proof.
  induction a as [|[] a IH]; simpl; rewrite ?IH; done.
Qed.

Lemma responses_app a b : responses (a ++ b) = responses a ++ responses b.
Proof.
  induction a as [|[] a IH]; simpl; rewrite ?IH; done.
Qed.

Lemma sleeps_app a b : sleeps (a ++ b) = (sleeps a + sleeps b)%nat.
Proof.
  induction a as [|[] a IH]; simpl; rewrite ?IH; done.
Qed.

(** ** The loop *)

Lemma post_one_run client t k c f :
  post_one client t k c f = (Returned tt, after_attempt client t k c f).
Proof.
  unfold post_one, after_attempt, attempt_events, try_except, chat_postMessage,
    logger_error, time_sleep, emit, assign_sent, assign_failed, locals,
    mbind, M_bind.
  simpl. destruct (client k c t) as [[]|[e|e]]; simpl;
    by rewrite <- app_assoc.
Qed.

(** The loop never raises, and leaves the frame [after_attempts]
    describes. *)
Lemma for_channels_run client t cs : ∀ k f,
  for_channels client t k cs f = (Returned tt, after_attempts client t k cs f).
Proof.
  induction cs as [|c cs IH]; intros k f; [done|].
  simpl. unfold mbind, M_bind. by rewrite post_one_run, IH.
Qed.

Lemma after_attempt_trace client t k c f :
  trace (after_attempt client t k c f) = trace f ++ attempt_events client t k c.
Proof. unfold after_attempt. by destruct (client k c t). Qed.

(** The loop appends the events of sequential attempts, in list order. *)
Lemma after_attempts_trace client t cs : ∀ k f,
  trace (after_attempts client t k cs f) = trace f ++ attempts_from client t k cs.
Proof.
  induction cs as [|c cs IH]; intros k f; simpl.
  - by rewrite app_nil_r.
  - by rewrite IH, after_attempt_trace, <- app_assoc.
Qed.

(** Every iteration either counts a send or records the channel. *)
Lemma after_attempt_counts client t k c f :
  sent (after_attempt client t k c f) + length (failed (after_attempt client t k c f))
  = S (sent f + length (failed f)).
Proof.
  unfold after_attempt.
  destruct (client k c t); simpl; rewrite ?length_app; simpl; lia.
Qed.

Lemma after_attempts_counts client t cs : ∀ k f,
  sent (after_attempts client t k cs f)
  + length (failed (after_attempts client t k cs f))
  = sent f + length (failed f) + length cs.
Proof.
  induction cs as [|c cs IH]; intros k f; [simpl; lia|]. simpl.
  rewrite IH, after_attempt_counts. lia.
Qed.

(** The recorded failures extend the earlier ones by a sub-sequence of
    the channels looped over. *)
Lemma after_attempts_failed client t cs : ∀ k f,
  ∃ l, failed (after_attempts client t k cs f) = failed f ++ l ∧ sublist l cs.
Proof.
  induction cs as [|c cs IH]; intros k f; simpl.
  - exists []. by rewrite app_nil_r.
  - destruct (IH (S k) (after_attempt client t k c f)) as (l & -> & Hl).
    unfold after_attempt. destruct (client k c t); simpl.
    + exists l. split; [done|]. by apply sublist_cons.
    + exists (c :: l). rewrite <- app_assoc. split; [done|]. by apply sublist_skip.
Qed.

(** The counter of successes is the number of pauses taken. *)
Lemma after_attempts_sent client t cs : ∀ k f,
  sent (after_attempts client t k cs f)
  = sent f + sleeps (attempts_from client t k cs).
Proof.
  induction cs as [|c cs IH]; intros k f; [simpl; lia|]. simpl.
  rewrite IH, sleeps_app. unfold after_attempt, attempt_events.
  destruct (client k c t) as [[]|[e|e]]; simpl; lia.
Qed.

(** A raising call on a channel of the list puts the channel in
    [failed], whatever happened before and whatever happens after. *)
Lemma after_attempts_records client t cs : ∀ k f i c x,
  cs !! i = Some c →
  client (k + i) c t = Raised x →
  c ∈ failed (after_attempts client t k cs f).
Proof.
  induction cs as [|c0 cs IH]; intros k f i c x Hi Hc; [done|].
  destruct i as [|i]; simpl in *.
  - injection Hi as ->. rewrite Nat.add_0_r in Hc.
    destruct (after_attempts_failed client t cs (S k) (after_attempt client t k c f))
      as (l & -> & _).
    apply elem_of_app. left. unfold after_attempt. rewrite Hc. simpl.
    apply elem_of_app. right. by apply list_elem_of_singleton.
  - apply (IH (S k) _ i c x Hi). by rewrite Nat.add_succ_comm.
Qed.

Lemma attempts_from_send_calls client t cs : ∀ k,
  send_calls (attempts_from client t k cs) = List.map (λ c, (c, t)) cs.
Proof.
  induction cs as [|c cs IH]; intros k; [done|]. simpl.
  destruct (client k c t) as [[]|[e|e]]; simpl; by rewrite IH.
Qed.

Lemma attempts_from_responses client t cs : ∀ k,
  responses (attempts_from client t k cs) = [].
Proof.
  induction cs as [|c cs IH]; intros k; [done|]. simpl.
  destruct (client k c t) as [[]|[e|e]]; simpl; by rewrite IH.
Qed.

Lemma broadcast_trace client t :
  trace (broadcast client t)
  = Ack :: attempts_from client t 0 BROADCAST_CHANNEL_IDS.
Proof. unfold broadcast. by rewrite after_attempts_trace. Qed.

(** Once every attempt but possibly the last has succeeded, no send
    follows another without a pause. *)
Lemma paused_from_no_sends b tr : send_calls tr = [] → paused_from b tr = true.
Proof.
  revert b. induction tr as [|[] tr IH]; intros b H; simpl in *; auto; done.
Qed.

Lemma attempts_from_paused client t rest cs : ∀ k,
  send_calls rest = [] →
  (∀ i c, cs !! i = Some c → S i < length cs →
          client (k + i) c t = Returned tt) →
  paused_from false (attempts_from client t k cs ++ rest) = true.
Proof.
  induction cs as [|c cs IH]; intros k Hrest Hok.
  - by apply paused_from_no_sends.
  - simpl. destruct cs as [|c' cs].
    + simpl. destruct (client k c t) as [[]|[e|e]]; simpl;
        by apply paused_from_no_sends.
    + rewrite <- (Nat.add_0_r k) at 1.
      rewrite (Hok 0 c eq_refl) by (simpl; lia).
      change (paused_from false
                (attempts_from client t (S k) (c' :: cs) ++ rest) = true).
      apply IH; [done|]. intros i d Hi Hlen.
      rewrite Nat.add_succ_comm. apply (Hok (S i) d Hi). simpl in *. lia.
Qed.

(** Conversely, a failed attempt that is not the last one is followed
    by the next send without a pause. *)
Lemma attempts_from_unpaused client t rest cs : ∀ k,
  paused_from false (attempts_from client t k cs ++ rest) = true →
  ∀ i c, cs !! i = Some c → S i < length cs →
         client (k + i) c t = Returned tt.
Proof.
  induction cs as [|c0 cs IH]; intros k Hp i c Hi Hlen; [done|].
  destruct cs as [|c' cs]; [simpl in Hlen; lia|].
  change (attempts_from client t k (c0 :: c' :: cs))
    with (attempt_events client t k c0
          ++ attempts_from client t (S k) (c' :: cs)) in Hp.
  unfold attempt_events in Hp.
  destruct (client k c0 t) as [[]|[e|e]] eqn:E; simpl in Hp; try done.
  destruct i as [|i].
  - injection Hi as <-. by rewrite Nat.add_0_r.
  - rewrite <- Nat.add_succ_comm. apply (IH (S k) Hp i c Hi). simpl in *. lia.
Qed.

Lemma length_upper_ge s :
  (∀ c, unicode_upper c ≠ []) → length s ≤ length (upper s).
Proof.
  intros Hne. induction s as [|c s IH]; [done|].
  change (upper (c :: s)) with (upper_char c ++ upper s).
  rewrite length_app. simpl.
  assert (upper_char c ≠ []) as Hc.
  { unfold upper_char. destruct (c <? 128)%N; [done|apply Hne]. }
  destruct (upper_char c); [done|]. simpl. lia.
Qed.

Lemma is_confirm_marked p r : upper p = confirm_prefix → is_confirm (p ++ r) = true.
Proof.
  intros Hp. unfold is_confirm. rewrite upper_app, Hp. apply startswith_app.
Qed.

(** ** The paths through the handler *)

Ltac run_handler :=
  unfold replies_only, invoke, handle_broadcast, ack, respond, emit,
    assign_sent, assign_failed, locals, mbind, M_bind, frame0; simpl.

Lemma text_nonempty_raw t : text t ≠ [] → t ≠ [].
Proof. intros H ->. by apply H. Qed.

Lemma invoke_not_allowed body client :
  user_is_allowed (user_id body) = false →
  replies_only (invoke body client) MSG_NOT_ALLOWED.
Proof. run_handler. by intros ->. Qed.

Lemma invoke_usage body client :
  user_is_allowed (user_id body) = true →
  text_raw body = [] →
  replies_only (invoke body client) MSG_USAGE.
Proof. run_handler. by intros -> ->. Qed.

Lemma invoke_empty_after_confirm body client :
  user_is_allowed (user_id body) = true →
  text_raw body ≠ [] →
  text (text_raw body) = [] →
  replies_only (invoke body client) MSG_EMPTY_AFTER_CONFIRM.
Proof.
  run_handler. intros -> Hraw Htext. simpl.
  destruct (text_raw body) as [|c raw] eqn:E; [done|]. by rewrite Htext.
Qed.

Lemma invoke_no_channels body client :
  user_is_allowed (user_id body) = true →
  text (text_raw body) ≠ [] →
  BROADCAST_CHANNEL_IDS = [] →
  replies_only (invoke body client) MSG_NO_CHANNELS.
Proof.
  run_handler. intros -> Htext ->. simpl.
  pose proof (text_nonempty_raw _ Htext) as Hraw.
  destruct (text_raw body) as [|c raw] eqn:E; [done|].
  by destruct (text (c :: raw)).
Qed.

Lemma invoke_preview body client :
  user_is_allowed (user_id body) = true →
  text_raw body ≠ [] →
  is_confirm (text_raw body) = false →
  BROADCAST_CHANNEL_IDS ≠ [] →
  replies_only (invoke body client) (preview_message (text_raw body)).
Proof.
  run_handler. intros -> Hraw Hconfirm Hch. simpl.
  rewrite (text_not_confirm _ Hconfirm), Hconfirm.
  destruct (text_raw body); [done|].
  by destruct BROADCAST_CHANNEL_IDS.
Qed.

Lemma replies_only_events body client msg :
  replies_only (invoke body client) msg →
  events body client = [Ack; Respond msg].
Proof. unfold events, replies_only. by intros ->. Qed.

(** A confirmed invocation returns after the loop and one response, the
    summary of the locals the loop left. *)
Lemma invoke_confirmed body client :
  confirmed_invocation body →
  invoke body client
  = (Returned tt,
     {| sent := sent (broadcast client (text (text_raw body)));
        failed := failed (broadcast client (text (text_raw body)));
        trace := trace (broadcast client (text (text_raw body)))
                 ++ [Respond (summary_message
                                (sent (broadcast client (text (text_raw body))))
                                (failed (broadcast client (text (text_raw body)))))]
     |}).
Proof.
  intros (Hallowed & Hconfirm & Htext & Hch).
  pose proof (text_nonempty_raw _ Htext) as Hraw.
  run_handler. rewrite Hallowed, Hconfirm. simpl.
  destruct (text_raw body) as [|c raw]; [done|].
  destruct (text (c :: raw)) as [|d t]; [done|].
  unfold broadcast. destruct BROADCAST_CHANNEL_IDS as [|ch chs]; [done|].
  by rewrite for_channels_run.
Qed.

Lemma confirmed_events body client :
  confirmed_invocation body →
  events body client
  = Ack :: attempts_from client (text (text_raw body)) 0 BROADCAST_CHANNEL_IDS
    ++ [Respond (summary_message
                   (sent (final body client)) (failed (final body client)))].
Proof.
  intros H. unfold events, final. rewrite (invoke_confirmed _ _ H). simpl.
  by rewrite broadcast_trace.
Qed.

Lemma confirmed_send_calls body client :
  confirmed_invocation body →
  send_calls (events body client)
  = List.map (λ c, (c, text (text_raw body))) BROADCAST_CHANNEL_IDS.
Proof.
  intros H. rewrite (confirmed_events _ _ H). simpl.
  rewrite send_calls_app, attempts_from_send_calls. simpl.
  by rewrite app_nil_r.
Qed.

(** ** The claims *)

(** C1.  An allowed user whose stripped argument is non-empty and does
    not start, case-insensitively, with the marker, with channels
    configured, gets the preview and nothing is sent: the handler
    returns after the acknowledgement and one response, with no call of
    [chat_postMessage]; the message body is the stripped argument
    itself; the response contains that body verbatim, the number of
    configured channels, the comma-separated list of all of them (hence
    each identifier), and it ends with the confirm invocation to copy,
    the same body after "CONFIRM: ". *)
Theorem preview_sends_nothing body client :
  user_is_allowed (user_id body) = true →
  text_raw body ≠ [] →
  is_confirm (text_raw body) = false →
  BROADCAST_CHANNEL_IDS ≠ [] →
  text (text_raw body) = text_raw body
  ∧ replies_only (invoke body client) (preview_message (text_raw body))
  ∧ send_calls (events body client) = []
  ∧ contains (preview_message (text_raw body)) (text_raw body)
  ∧ contains (preview_message (text_raw body))
      (lit "Would be sent to " ++ str_of_nat (length BROADCAST_CHANNEL_IDS)
       ++ lit " channel(s):")
  ∧ contains (preview_message (text_raw body))
      (join (lit ", ") BROADCAST_CHANNEL_IDS)
  ∧ (∀ c, c ∈ BROADCAST_CHANNEL_IDS →
       contains (preview_message (text_raw body)) c)
  ∧ ∃ before,
      preview_message (text_raw body)
      = before ++ lit "`/partner_broadcast CONFIRM: " ++ text_raw body ++ lit "`".
Proof.
  intros Hallowed Hraw Hconfirm Hch.
  pose proof (invoke_preview body client Hallowed Hraw Hconfirm Hch) as Hrun.
  assert (contains (preview_message (text_raw body)) channels_summary) as Hlist.
  { unfold preview_message. find_part. }
  split_and!.
  - by apply text_not_confirm.
  - exact Hrun.
  - by rewrite (replies_only_events _ _ _ Hrun).
  - unfold preview_message. find_part.
  - unfold preview_message. do 11 apply contains_app_r.
    apply contains_head3.
  - exact Hlist.
  - intros c Hc. destruct Hlist as (a & z & ->).
    apply contains_app_r, contains_app_l. by apply join_contains.
  - unfold preview_message. eexists. rewrite !app_assoc. reflexivity.
Qed.

(** C2.  A user who is not in a non-empty [ALLOWED_BROADCASTERS] gets the
    fixed rejection and nothing is sent, for every payload: the text
    plays no part in the outcome.  With an empty set every user passes
    the check. *)
Theorem unauthorized_user_rejected :
  (∀ body client,
      ALLOWED_BROADCASTERS ≠ ∅ →
      user_id body ∉ ALLOWED_BROADCASTERS →
      replies_only (invoke body client) MSG_NOT_ALLOWED
      ∧ send_calls (events body client) = [])
  ∧ (ALLOWED_BROADCASTERS = ∅ → ∀ u, user_is_allowed u = true).
Proof.
  split.
  - intros body client Hne Hnotin.
    assert (replies_only (invoke body client) MSG_NOT_ALLOWED) as Hrun.
    { apply invoke_not_allowed. unfold user_is_allowed.
      rewrite decide_False by done. by apply bool_decide_eq_false. }
    split; [exact Hrun|]. by rewrite (replies_only_events _ _ _ Hrun).
  - intros He u. unfold user_is_allowed. by rewrite decide_True.
Qed.

(** C3.  When a confirmed invocation has run its loop, the locals satisfy
    [sent + len(failed) = len(BROADCAST_CHANNEL_IDS)], and [failed] is a
    sub-sequence of the configured channels, so every recorded
    identifier is one of them; the response is the summary of these two
    locals. *)
Theorem broadcast_accounting body client :
  confirmed_invocation body →
  sent (final body client) + length (failed (final body client))
  = length BROADCAST_CHANNEL_IDS
  ∧ sublist (failed (final body client)) BROADCAST_CHANNEL_IDS
  ∧ (∀ c, c ∈ failed (final body client) → c ∈ BROADCAST_CHANNEL_IDS)
  ∧ responses (events body client)
    = [summary_message (sent (final body client)) (failed (final body client))].
Proof.
  intros H. pose proof (confirmed_events body client H) as Hev.
  revert Hev. unfold events, final. rewrite (invoke_confirmed body client H).
  simpl. intros Hev. unfold broadcast in *.
  set (f0 := {| sent := 0; failed := []; trace := [Ack] |}) in *.
  pose proof (after_attempts_counts client (text (text_raw body))
                BROADCAST_CHANNEL_IDS 0 f0) as Hcount.
  destruct (after_attempts_failed client (text (text_raw body))
              BROADCAST_CHANNEL_IDS 0 f0) as (l & Hl & Hsub).
  simpl in Hcount, Hl. split_and!.
  - exact Hcount.
  - by rewrite Hl.
  - intros c Hc. rewrite Hl in Hc. by apply (elem_of_sublist l).
  - rewrite Hev. simpl.
    by rewrite responses_app, attempts_from_responses.
Qed.

(** C4.  Whatever the input and whatever the client does, the handler
    returns normally, and it ends by responding, exactly once.  In a
    confirmed invocation a call that raises, either way, does not stop
    the loop: all channels are still called, and the channel of every
    raising call is in [failed]. *)
Theorem send_failures_isolated body client :
  ((invoke body client).1 = Returned tt
   ∧ ∃ before msg,
       events body client = Ack :: before ++ [Respond msg]
       ∧ responses before = [])
  ∧ (confirmed_invocation body →
     send_calls (events body client)
     = List.map (λ c, (c, text (text_raw body))) BROADCAST_CHANNEL_IDS
     ∧ ∀ k c x, BROADCAST_CHANNEL_IDS !! k = Some c →
                client k c (text (text_raw body)) = Raised x →
                c ∈ failed (final body client)).
Proof.
  split.
  - assert (∀ msg, replies_only (invoke body client) msg →
              (invoke body client).1 = Returned tt
              ∧ ∃ before m, events body client = Ack :: before ++ [Respond m]
                            ∧ responses before = []) as Hquiet.
    { intros msg Hrun. unfold events. unfold replies_only in Hrun.
      rewrite Hrun. split; [done|]. exists [], msg. by split. }
    destruct (user_is_allowed (user_id body)) eqn:Hallowed;
      [|by eapply Hquiet, invoke_not_allowed].
    destruct (decide (text_raw body = [])) as [Hraw|Hraw];
      [by eapply Hquiet, invoke_usage|].
    destruct (decide (text (text_raw body) = [])) as [Htext|Htext];
      [by eapply Hquiet, invoke_empty_after_confirm|].
    destruct (decide (BROADCAST_CHANNEL_IDS = [])) as [Hch|Hch];
      [by eapply Hquiet, invoke_no_channels|].
    destruct (is_confirm (text_raw body)) eqn:Hconfirm;
      [|by eapply Hquiet, invoke_preview].
    assert (confirmed_invocation body) as H by done.
    split; [by rewrite (invoke_confirmed _ _ H)|].
    rewrite (confirmed_events _ _ H).
    eexists _, _. split; [reflexivity|]. apply attempts_from_responses.
  - intros H. split; [by apply confirmed_send_calls|].
    intros k c x Hk Hc. unfold final. rewrite (invoke_confirmed _ _ H). simpl.
    by apply (after_attempts_records _ _ _ 0 _ k c x).
Qed.

(** C5.  In a confirmed invocation the events between the
    acknowledgement and the response are those of strictly sequential
    attempts over the configured list, so the calls of
    [chat_postMessage] are, in order, one call per entry of the list,
    each with the message text; no channel is called again after a
    failure. *)
Theorem sends_follow_channel_order body client :
  confirmed_invocation body →
  events body client
  = Ack :: attempts_from client (text (text_raw body)) 0 BROADCAST_CHANNEL_IDS
    ++ [Respond (summary_message
                   (sent (final body client)) (failed (final body client)))]
  ∧ send_calls (events body client)
    = List.map (λ c, (c, text (text_raw body))) BROADCAST_CHANNEL_IDS.
Proof.
  intros H. split; [by apply confirmed_events|by apply confirmed_send_calls].
Qed.

(** C7.  With no channel configured, an allowed user whose message body
    is non-empty gets the guidance message and nothing is sent, whether
    or not the argument carries the marker. *)
Theorem no_channels_guard body client :
  user_is_allowed (user_id body) = true →
  text (text_raw body) ≠ [] →
  BROADCAST_CHANNEL_IDS = [] →
  replies_only (invoke body client) MSG_NO_CHANNELS
  ∧ send_calls (events body client) = [].
Proof.
  intros Hallowed Htext Hch.
  pose proof (invoke_no_channels body client Hallowed Htext Hch) as Hrun.
  split; [exact Hrun|]. by rewrite (replies_only_events _ _ _ Hrun).
Qed.

(** C8, as the code has it.  In a confirmed invocation the events between
    the acknowledgement and the response are those of sequential
    attempts: each call is followed at once by the pause of [SLEEP_MS]
    when it returned, and by a log line and no pause when it raised.  So
    the pauses number [sent]; every channel is called once, failed or
    not; and no send follows another without a pause exactly when every
    attempt before the last one succeeded. *)
Theorem pause_after_each_successful_send body client :
  confirmed_invocation body →
  events body client
  = Ack :: attempts_from client (text (text_raw body)) 0 BROADCAST_CHANNEL_IDS
    ++ [Respond (summary_message
                   (sent (final body client)) (failed (final body client)))]
  ∧ sleeps (events body client) = sent (final body client)
  ∧ send_calls (events body client)
    = List.map (λ c, (c, text (text_raw body))) BROADCAST_CHANNEL_IDS
  ∧ (delay_between_sends (events body client) = true
     ↔ ∀ k c, BROADCAST_CHANNEL_IDS !! k = Some c →
              S k < length BROADCAST_CHANNEL_IDS →
              client k c (text (text_raw body)) = Returned tt).
Proof.
  intros H. pose proof (confirmed_send_calls body client H) as Hcalls.
  pose proof (confirmed_events body client H) as Hev.
  split_and!.
  - exact Hev.
  - rewrite Hev. simpl. rewrite sleeps_app. simpl.
    unfold final. rewrite (invoke_confirmed body client H). simpl.
    unfold broadcast. rewrite after_attempts_sent. simpl. lia.
  - exact Hcalls.
  - rewrite Hev. unfold delay_between_sends.
    change (paused_from false (Ack :: ?tr)) with (paused_from false tr).
    split.
    + intros Hp k c. by apply (attempts_from_unpaused _ _ _ _ 0 Hp).
    + intros Hok. by apply (attempts_from_paused _ _ _ _ 0).
Qed.

(** C9.  For an allowed user: an argument that is empty once stripped is
    answered with the usage message; an argument that carries the marker
    and nothing after it, such as "CONFIRM:" alone, is answered with the
    empty-after-confirm message, which is a different text; in both
    cases the handler stops there and nothing is sent.  The usage message
    lists the preview form and the confirm form. *)
Theorem empty_input_messages body client :
  user_is_allowed (user_id body) = true →
  (text_raw body = [] →
     replies_only (invoke body client) MSG_USAGE
     ∧ send_calls (events body client) = [])
  ∧ (is_confirm (text_raw body) = true → text (text_raw body) = [] →
     replies_only (invoke body client) MSG_EMPTY_AFTER_CONFIRM
     ∧ send_calls (events body client) = [])
  ∧ (text_raw body = confirm_prefix →
     replies_only (invoke body client) MSG_EMPTY_AFTER_CONFIRM
     ∧ send_calls (events body client) = [])
  ∧ MSG_EMPTY_AFTER_CONFIRM ≠ MSG_USAGE
  ∧ contains MSG_USAGE (lit "Preview: `/partner_broadcast Your message here`")
  ∧ contains MSG_USAGE
      (lit "Confirm: `/partner_broadcast CONFIRM: Your message here`").
Proof.
  intros Hallowed.
  assert (∀ raw, is_confirm raw = true → raw ≠ []) as Hne.
  { by intros raw Hc ->. }
  assert (∀ msg, replies_only (invoke body client) msg →
                 replies_only (invoke body client) msg
                 ∧ send_calls (events body client) = []) as Hquiet.
  { intros msg Hrun. split; [done|]. by rewrite (replies_only_events _ _ _ Hrun). }
  split_and!.
  - intros Hraw. by apply Hquiet, invoke_usage.
  - intros Hc Ht. apply Hquiet, invoke_empty_after_confirm; auto.
  - intros Hraw.
    apply Hquiet, invoke_empty_after_confirm; [done|by rewrite Hraw|by rewrite Hraw].
  - done.
  - exists (lit "Usage:" ++ LF ++ BULLET ++ lit " "),
      (LF ++ BULLET
       ++ lit " Confirm: `/partner_broadcast CONFIRM: Your message here`").
    reflexivity.
  - exists (lit "Usage:" ++ LF ++ BULLET
            ++ lit " Preview: `/partner_broadcast Your message here`"
            ++ LF ++ BULLET ++ lit " "), [].
    reflexivity.
Qed.

(** ** More on [strip] *)

Lemma lstrip_head s :
  lstrip s = [] ∨ ∃ c r, lstrip s = c :: r ∧ isspace c = false.
Proof.
  induction s as [|c s IH]; [by left|]. simpl.
  destruct (isspace c) eqn:E; [exact IH|]. right. by exists c, s.
Qed.

Lemma lstrip_nonspace c s : isspace c = false → lstrip (c :: s) = c :: s.
Proof. simpl. by intros ->. Qed.

Lemma lstrip_app x y : lstrip x ≠ [] → lstrip (x ++ y) = lstrip x ++ y.
Proof.
  induction x as [|c x IH]; [done|]. simpl.
  destruct (isspace c); [exact IH|done].
Qed.

Lemma lstrip_nil_iff s : lstrip s = [] ↔ Forall (λ c, isspace c = true) s.
Proof.
  induction s as [|c s IH]; [by split; [constructor|]|]. simpl.
  destruct (isspace c) eqn:E.
  - rewrite IH. split; [by constructor|]. by inversion 1.
  - split; [done|]. inversion 1; congruence.
Qed.

Lemma lstrip_suffix s : ∃ spaces, s = spaces ++ lstrip s
                                  ∧ Forall (λ c, isspace c = true) spaces.
Proof.
  induction s as [|c s (sp & Hs & Hsp)]; [by exists []|]. simpl.
  destruct (isspace c) eqn:E.
  - exists (c :: sp). split; [simpl; congruence|by constructor].
  - by exists [].
Qed.

Lemma rstrip_app x y : rstrip y ≠ [] → rstrip (x ++ y) = x ++ rstrip y.
Proof.
  unfold rstrip. intros H. rewrite rev_app_distr, lstrip_app.
  - by rewrite rev_app_distr, rev_involutive.
  - intros E. apply H. by rewrite E.
Qed.

Lemma rstrip_idem s : rstrip (rstrip s) = rstrip s.
Proof.
  unfold rstrip. rewrite rev_involutive.
  destruct (lstrip_head (rev s)) as [->|(c & r & -> & Hc)]; [done|].
  by rewrite lstrip_nonspace.
Qed.

Lemma rstrip_keeps_head c s :
  isspace c = false → ∃ r, rstrip (c :: s) = c :: r.
Proof.
  intros Hc. change (c :: s) with ([c] ++ s).
  destruct (decide (rstrip s = [])) as [E|E].
  - exists []. unfold rstrip in *. rewrite rev_app_distr. simpl.
    assert (lstrip (rev s) = []) as E'.
    { apply (f_equal (@rev N)) in E. by rewrite rev_involutive in E. }
    apply lstrip_nil_iff in E'.
    assert (lstrip (rev s ++ [c]) = [c]) as ->; [|done].
    revert E'. generalize (rev s). intros l E'.
    induction E' as [|d l Hd _ IH]; simpl.
    + by rewrite Hc.
    + by rewrite Hd.
  - exists (rstrip s). by apply rstrip_app.
Qed.

(** The result of [strip] has no white space at either end: stripping it
    again, on the left, on the right or both, changes nothing. *)
Lemma lstrip_strip s : lstrip (strip s) = strip s.
Proof.
  unfold strip. destruct (lstrip_head s) as [->|(c & r & -> & Hc)]; [done|].
  destruct (rstrip_keeps_head c r Hc) as [r' ->]. by apply lstrip_nonspace.
Qed.

Lemma rstrip_strip s : rstrip (strip s) = strip s.
Proof. unfold strip. apply rstrip_idem. Qed.

Lemma strip_idem s : strip (strip s) = strip s.
Proof.
  unfold strip at 1. by rewrite lstrip_strip, rstrip_strip.
Qed.

Lemma strip_nil_iff s : strip s = [] ↔ Forall (λ c, isspace c = true) s.
Proof.
  split.
  - intros H. destruct (lstrip_head s) as [E|(c & r & E & Hc)].
    + by apply lstrip_nil_iff.
    + unfold strip in H. rewrite E in H.
      destruct (rstrip_keeps_head c r Hc) as [r' Hr]. congruence.
  - intros H. unfold strip. apply lstrip_nil_iff in H. by rewrite H.
Qed.

Lemma strip_space_l c s : isspace c = true → strip (c :: s) = strip s.
Proof. unfold strip. simpl. by intros ->. Qed.

Lemma strip_app_stripped c p m :
  isspace c = false → strip m = m → m ≠ [] →
  strip ((c :: p) ++ m) = (c :: p) ++ m.
Proof.
  intros Hc Hm Hne. unfold strip.
  change ((c :: p) ++ m) with (c :: (p ++ m)). rewrite lstrip_nonspace by done.
  change (c :: (p ++ m)) with ((c :: p) ++ m).
  rewrite rstrip_app; by rewrite <- Hm, rstrip_strip, Hm.
Qed.

Lemma length_lstrip s : length (lstrip s) ≤ length s.
Proof.
  destruct (lstrip_suffix s) as (sp & Hs & _).
  rewrite Hs at 2. rewrite length_app. lia.
Qed.

Lemma stripped_ends t c :
  strip t = t → head t = Some c ∨ last t = Some c → isspace c = false.
Proof.
  intros Ht [Hc|Hc].
  - apply head_Some in Hc as [r ->].
    pose proof (lstrip_strip (c :: r)) as H. rewrite Ht in H. simpl in H.
    destruct (isspace c); [|done].
    pose proof (length_lstrip r) as Hlen. rewrite H in Hlen. simpl in Hlen. lia.
  - apply last_Some in Hc as [l ->].
    pose proof (rstrip_strip (l ++ [c])) as H. rewrite Ht in H.
    unfold rstrip in H. rewrite rev_app_distr in H. simpl in H.
    destruct (isspace c); [|done].
    apply (f_equal (@length N)) in H.
    rewrite length_rev, length_app in H. simpl in H.
    pose proof (length_lstrip (rev l)) as Hlen. rewrite length_rev in Hlen. lia.
Qed.

(** ** Cutting a remainder short *)

Lemma length_lstrip_take m x :
  length (lstrip (take m x)) ≤ length (lstrip x).
Proof.
  revert m. induction x as [|c x IH]; intros [|m]; simpl; try lia.
  destruct (isspace c); [apply IH|]. simpl. rewrite length_take. lia.
Qed.

Lemma length_rstrip_drop k s :
  length (rstrip (drop k s)) ≤ length (rstrip s).
Proof.
  unfold rstrip. rewrite !length_rev.
  destruct (decide (k ≤ length s)) as [Hk|Hk].
  - replace (rev (drop k s)) with (take (length s - k) (rev s)).
    + apply length_lstrip_take.
    + rewrite firstn_rev. do 2 f_equal. lia.
  - rewrite drop_ge by lia. simpl. lia.
Qed.

Lemma length_strip_rstrip s : length (strip s) ≤ length (rstrip s).
Proof.
  unfold strip. destruct (lstrip_suffix s) as (sp & Hs & _).
  rewrite Hs at 2. rewrite <- (drop_app_length sp (lstrip s)) at 1.
  apply length_rstrip_drop.
Qed.

Lemma length_rstrip_nonspace c s :
  isspace c = false → S (length (rstrip s)) ≤ length (rstrip (c :: s)).
Proof.
  intros Hc. destruct (decide (rstrip s = [])) as [E|E].
  - rewrite E. destruct (rstrip_keeps_head c s Hc) as [r ->]. simpl. lia.
  - change (c :: s) with ([c] ++ s). rewrite rstrip_app by done. simpl. lia.
Qed.

(** Dropping the first [k] code points of [r] leaves its stripped form
    alone exactly when they are all white space. *)
Lemma strip_drop_spaces k r :
  strip (drop k r) = strip r ↔ Forall (λ c, isspace c = true) (take k r).
Proof.
  revert r. induction k as [|k IH]; intros r; [by split; [constructor|]|].
  destruct r as [|c r]; [by split; [constructor|]|]. simpl.
  destruct (isspace c) eqn:Hc.
  - rewrite (strip_space_l c r Hc), IH. split; [by constructor|]. by inversion 1.
  - split; [|inversion 1; congruence]. intros H. exfalso.
    apply (f_equal (@length N)) in H.
    pose proof (length_strip_rstrip (drop k r)) as H1.
    pose proof (length_rstrip_drop k r) as H2.
    pose proof (length_rstrip_nonspace c r Hc) as H3.
    unfold strip in H at 2. rewrite (lstrip_nonspace c r Hc) in H. lia.
Qed.

(** C10, as the code has it.  The marker is stripped by position.
    Whenever the upper-cased stripped argument starts with "CONFIRM:", the
    invocation counts as confirmed and the message text is the argument
    without its first 8 code points, stripped.  So, for an argument made
    of a prefix [p] whose upper-case form is the marker and a remainder
    [r], the message text is [r] stripped exactly when the code points of
    [r] that are cut off with [p], as many as upper-casing lengthens [p]
    by, are all white space: always when the length of [p] is unchanged,
    and otherwise only for such remainders.  (No code point has an empty
    upper-case form.) *)
Theorem marker_stripping_positional :
  (∀ c, unicode_upper c ≠ []) →
  (∀ t, startswith (upper t) confirm_prefix = true →
        is_confirm t = true ∧ text t = strip (drop 8 t))
  ∧ (∀ p r, upper p = confirm_prefix →
            text (p ++ r) = strip (drop (length (upper p) - length p) r)
            ∧ (text (p ++ r) = strip r
               ↔ Forall (λ c, isspace c = true)
                   (take (length (upper p) - length p) r))
            ∧ (length (upper p) = length p → text (p ++ r) = strip r)).
Proof.
  intros Hne. split.
  - intros t Ht. split; [exact Ht|]. by apply text_confirm.
  - intros p r Hp. pose proof (length_upper_ge p Hne) as Hlen.
    assert (text (p ++ r) = strip (drop (length (upper p) - length p) r)) as Ht.
    { rewrite (text_confirm _ (is_confirm_marked p r Hp)), drop_app.
      rewrite Hp in *. change (length confirm_prefix) with 8 in *.
      by rewrite drop_ge. }
    split_and!; [exact Ht| |].
    + rewrite Ht. apply strip_drop_spaces.
    + intros Hkeep. rewrite Ht, Hkeep, Nat.sub_diag. done.
Qed.

(** ** Every path at once *)

Lemma invoke_cases body client :
  (∃ msg, replies_only (invoke body client) msg) ∨ confirmed_invocation body.
Proof.
  destruct (user_is_allowed (user_id body)) eqn:Hallowed;
    [|left; eexists; by apply invoke_not_allowed].
  destruct (decide (text_raw body = [])) as [Hraw|Hraw];
    [left; eexists; by apply invoke_usage|].
  destruct (decide (text (text_raw body) = [])) as [Htext|Htext];
    [left; eexists; by apply invoke_empty_after_confirm|].
  destruct (decide (BROADCAST_CHANNEL_IDS = [])) as [Hch|Hch];
    [left; eexists; by apply invoke_no_channels|].
  destruct (is_confirm (text_raw body)) eqn:Hconfirm;
    [by right|left; eexists; by apply invoke_preview].
Qed.

Lemma acks_app a b : acks (a ++ b) = acks a + acks b.
Proof. induction a as [|[] a IH]; simpl; rewrite ?IH; done. Qed.

Lemma log_errors_app a b : log_errors (a ++ b) = log_errors a ++ log_errors b.
Proof. induction a as [|[] a IH]; simpl; rewrite ?IH; done. Qed.

Lemma attempts_from_acks client t cs : ∀ k, acks (attempts_from client t k cs) = 0.
Proof.
  induction cs as [|c cs IH]; intros k; [done|]. simpl.
  destruct (client k c t) as [[]|[e|e]]; simpl; by rewrite IH.
Qed.

Lemma attempts_from_log_errors client t cs : ∀ k,
  length (log_errors (attempts_from client t k cs))
  = length (raised_channels client t k cs).
Proof.
  induction cs as [|c cs IH]; intros k; [done|]. simpl.
  destruct (client k c t) as [[]|[e|e]]; simpl; by rewrite IH.
Qed.

Lemma after_attempts_raised client t cs : ∀ k f,
  failed (after_attempts client t k cs f)
  = failed f ++ raised_channels client t k cs.
Proof.
  induction cs as [|c cs IH]; intros k f; simpl.
  - by rewrite app_nil_r.
  - rewrite IH. unfold after_attempt.
    destruct (client k c t); simpl; [done|by rewrite <- app_assoc].
Qed.

Lemma raised_channels_none client t cs : ∀ k,
  (∀ i c, cs !! i = Some c → client (k + i) c t = Returned tt) →
  raised_channels client t k cs = []
  ∧ attempts_from client t k cs
    = flat_map (λ c, [PostMessage c t; Sleep SLEEP_MS]) cs.
Proof.
  induction cs as [|c cs IH]; intros k Hok; [done|]. simpl.
  unfold attempt_events.
  pose proof (Hok 0 c eq_refl) as H0. rewrite Nat.add_0_r in H0. rewrite H0.
  destruct (IH (S k)) as [-> ->]; [|done].
  intros i d Hi. rewrite Nat.add_succ_comm. by apply (Hok (S i)).
Qed.

Lemma raised_channels_all client t cs : ∀ k,
  (∀ i c, cs !! i = Some c → ∃ x, client (k + i) c t = Raised x) →
  raised_channels client t k cs = cs
  ∧ sleeps (attempts_from client t k cs) = 0.
Proof.
  induction cs as [|c cs IH]; intros k Hall; [done|]. simpl.
  destruct (Hall 0 c eq_refl) as [x H0]. rewrite Nat.add_0_r in H0.
  unfold attempt_events. rewrite H0.
  destruct (IH (S k)) as [E1 E2].
  { intros i d Hi. rewrite Nat.add_succ_comm. by apply (Hall (S i)). }
  rewrite E1. split; [done|]. destruct x; simpl; exact E2.
Qed.

Lemma confirmed_final body client :
  confirmed_invocation body →
  failed (final body client)
  = raised_channels client (text (text_raw body)) 0 BROADCAST_CHANNEL_IDS
  ∧ sent (final body client)
    = sleeps (attempts_from client (text (text_raw body)) 0 BROADCAST_CHANNEL_IDS).
Proof.
  intros H. unfold final. rewrite (invoke_confirmed _ _ H). simpl.
  unfold broadcast. by rewrite after_attempts_raised, after_attempts_sent.
Qed.

(** ** Further properties of the handler *)

(** X1.  Whatever the payload and the client, a call of
    [chat_postMessage] is only made in an invocation by an allowed user
    whose argument carries the marker; its channel is a configured one and
    its text is the message text of the argument, which is not empty and
    has no white space at either end. *)
Theorem sends_only_when_confirmed body client c t :
  (c, t) ∈ send_calls (events body client) →
  confirmed_invocation body
  ∧ c ∈ BROADCAST_CHANNEL_IDS
  ∧ t = text (text_raw body)
  ∧ t ≠ []
  ∧ strip t = t.
Proof.
  intros Hin. destruct (invoke_cases body client) as [[msg Hrun]|H].
  - rewrite (replies_only_events _ _ _ Hrun) in Hin. simpl in Hin.
    by apply elem_of_nil in Hin.
  - rewrite (confirmed_send_calls _ _ H) in Hin.
    apply list_elem_of_In, in_map_iff in Hin as (c' & [= <- <-] & Hc).
    destruct H as (Hallowed & Hconfirm & Htext & Hch).
    split_and!; try done.
    + by apply list_elem_of_In.
    + rewrite (text_confirm _ Hconfirm). apply strip_idem.
Qed.

(** X2.  The stripped argument and the message text derived from it, the
    text a preview shows and a broadcast sends, are fixed by [strip]:
    neither starts nor ends with a white-space character. *)
Theorem message_text_is_stripped body c :
  head (text (text_raw body)) = Some c ∨ last (text (text_raw body)) = Some c →
  isspace c = false
  ∧ strip (text_raw body) = text_raw body
  ∧ strip (text (text_raw body)) = text (text_raw body).
Proof.
  assert (strip (text (text_raw body)) = text (text_raw body)) as Ht.
  { unfold text. destruct (is_confirm (text_raw body)); apply strip_idem. }
  intros Hc. split_and!; [by apply (stripped_ends _ c Ht)|apply strip_idem|exact Ht].
Qed.

(** X3.  The confirm invocation a preview suggests does what the preview
    announced: for an allowed user and a non-empty stripped argument [m],
    the argument "CONFIRM: " followed by [m] is a confirmed invocation
    whose message text is [m] again, and it calls every configured channel
    with [m]. *)
Theorem preview_confirm_round_trip body client :
  user_is_allowed (user_id body) = true →
  text_raw body ≠ [] →
  BROADCAST_CHANNEL_IDS ≠ [] →
  confirmed_invocation
    {| user_id := user_id body;
       text_field := Some (lit "CONFIRM: " ++ text_raw body) |}
  ∧ text (text_raw {| user_id := user_id body;
                      text_field := Some (lit "CONFIRM: " ++ text_raw body) |})
    = text_raw body
  ∧ send_calls
      (events {| user_id := user_id body;
                 text_field := Some (lit "CONFIRM: " ++ text_raw body) |} client)
    = List.map (λ ch, (ch, text_raw body)) BROADCAST_CHANNEL_IDS.
Proof.
  intros Hallowed Hraw Hch.
  set (m := text_raw body) in *.
  assert (strip m = m) as Hm by apply strip_idem.
  set (body' := {| user_id := user_id body;
                   text_field := Some (lit "CONFIRM: " ++ m) |}).
  assert (text_raw body' = confirm_prefix ++ lit " " ++ m) as Hraw'.
  { change (text_raw body') with (strip ((67%N :: lit "ONFIRM: ") ++ m)).
    by rewrite strip_app_stripped. }
  assert (is_confirm (text_raw body') = true) as Hconfirm.
  { rewrite Hraw'. by apply is_confirm_marked. }
  assert (text (text_raw body') = m) as Htext.
  { rewrite (text_confirm _ Hconfirm), Hraw'.
    change (drop 8 (confirm_prefix ++ lit " " ++ m)) with (32%N :: m).
    by rewrite strip_space_l. }
  assert (confirmed_invocation body') as H.
  { split_and!; [exact Hallowed|exact Hconfirm|by rewrite Htext|exact Hch]. }
  split_and!; [exact H|exact Htext|].
  by rewrite (confirmed_send_calls _ _ H), Htext.
Qed.

(** X4.  When every call returns, a confirmed invocation counts all the
    channels, records no failure, pauses after each call, and answers
    exactly "Broadcast complete. Sent to N channel(s)." with [N] the
    number of channels. *)
Theorem all_sends_succeed body client :
  confirmed_invocation body →
  (∀ k c, BROADCAST_CHANNEL_IDS !! k = Some c →
          client k c (text (text_raw body)) = Returned tt) →
  invoke body client
  = (Returned tt,
     {| sent := length BROADCAST_CHANNEL_IDS;
        failed := [];
        trace :=
          Ack :: flat_map (λ c, [PostMessage c (text (text_raw body));
                                 Sleep SLEEP_MS]) BROADCAST_CHANNEL_IDS
          ++ [Respond (lit "Broadcast complete. Sent to "
                       ++ str_of_nat (length BROADCAST_CHANNEL_IDS)
                       ++ lit " channel(s).")] |}).
Proof.
  intros H Hok.
  destruct (raised_channels_none client (text (text_raw body))
              BROADCAST_CHANNEL_IDS 0 Hok) as [Hnone Hev].
  rewrite (invoke_confirmed _ _ H). unfold broadcast.
  set (f0 := {| sent := 0; failed := []; trace := [Ack] |}).
  pose proof (after_attempts_counts client (text (text_raw body))
                BROADCAST_CHANNEL_IDS 0 f0) as Hcount.
  pose proof (after_attempts_raised client (text (text_raw body))
                BROADCAST_CHANNEL_IDS 0 f0) as Hfailed.
  rewrite Hnone in Hfailed. simpl in Hfailed. rewrite Hfailed in *.
  simpl in Hcount. rewrite Nat.add_0_r in Hcount. rewrite Hcount.
  by rewrite after_attempts_trace, Hev.
Qed.

(** X5.  When every call raises, a confirmed invocation counts nothing,
    records every channel in list order, never pauses, and answers
    "Broadcast complete. Sent to 0 channel(s). Failed on N channel(s): "
    followed by the channels, comma separated. *)
Theorem all_sends_fail body client :
  confirmed_invocation body →
  (∀ k c, BROADCAST_CHANNEL_IDS !! k = Some c →
          ∃ x, client k c (text (text_raw body)) = Raised x) →
  sent (final body client) = 0
  ∧ failed (final body client) = BROADCAST_CHANNEL_IDS
  ∧ sleeps (events body client) = 0
  ∧ responses (events body client)
    = [lit "Broadcast complete. Sent to 0 channel(s). Failed on "
       ++ str_of_nat (length BROADCAST_CHANNEL_IDS) ++ lit " channel(s): "
       ++ join (lit ", ") BROADCAST_CHANNEL_IDS].
Proof.
  intros H Hall.
  destruct (raised_channels_all client (text (text_raw body))
              BROADCAST_CHANNEL_IDS 0 Hall) as [Hraised Hsleeps].
  destruct (confirmed_final body client H) as [Hfailed Hsent].
  rewrite Hraised in Hfailed. rewrite Hsleeps in Hsent.
  rewrite (confirmed_events _ _ H), Hfailed, Hsent. simpl.
  rewrite sleeps_app, responses_app, attempts_from_responses, Hsleeps.
  split_and!; try done. simpl.
  destruct H as (_ & _ & _ & Hch).
  unfold summary_message. destruct BROADCAST_CHANNEL_IDS; [done|].
  by rewrite <- !app_assoc.
Qed.

(** X6.  After the loop of a confirmed invocation, [failed] holds exactly
    the channels whose call raised, in list order, and [sent] is the
    number of the others. *)
Theorem failed_lists_raising_channels body client :
  confirmed_invocation body →
  failed (final body client)
  = raised_channels client (text (text_raw body)) 0 BROADCAST_CHANNEL_IDS
  ∧ sent (final body client)
    = length BROADCAST_CHANNEL_IDS
      - length (raised_channels client (text (text_raw body)) 0
                  BROADCAST_CHANNEL_IDS).
Proof.
  intros H. destruct (confirmed_final body client H) as [Hfailed _].
  split; [exact Hfailed|]. rewrite <- Hfailed.
  unfold final. rewrite (invoke_confirmed _ _ H). simpl. unfold broadcast.
  pose proof (after_attempts_counts client (text (text_raw body))
                BROADCAST_CHANNEL_IDS 0
                {| sent := 0; failed := []; trace := [Ack] |}) as Hcount.
  simpl in Hcount. lia.
Qed.

(** X7.  In every invocation, whatever the payload and the client: [ack]
    is called once, and first; [respond] is called once; the pauses number
    [sent]; the error lines logged number [len(failed)]; and the calls of
    [chat_postMessage] number [sent + len(failed)]. *)
Theorem event_accounting body client :
  head (events body client) = Some Ack
  ∧ acks (events body client) = 1
  ∧ length (responses (events body client)) = 1
  ∧ sleeps (events body client) = sent (final body client)
  ∧ length (log_errors (events body client))
    = length (failed (final body client))
  ∧ length (send_calls (events body client))
    = sent (final body client) + length (failed (final body client)).
Proof.
  destruct (invoke_cases body client) as [[msg Hrun]|H].
  - unfold events, final. unfold replies_only in Hrun. by rewrite Hrun.
  - destruct (confirmed_final body client H) as [Hfailed Hsent].
    rewrite (confirmed_send_calls _ _ H), (confirmed_events _ _ H).
    rewrite Hfailed, Hsent. simpl.
    rewrite acks_app, responses_app, sleeps_app, log_errors_app. simpl.
    rewrite app_nil_r, attempts_from_acks, attempts_from_responses,
      attempts_from_log_errors, length_map.
    split_and!; try done; try lia.
    rewrite <- Hsent, <- Hfailed. unfold final.
    rewrite (invoke_confirmed _ _ H). simpl. unfold broadcast.
    pose proof (after_attempts_counts client (text (text_raw body))
                  BROADCAST_CHANNEL_IDS 0
                  {| sent := 0; failed := []; trace := [Ack] |}) as Hcount.
    simpl in Hcount. lia.
Qed.

End Handler.


(** ** Concrete runs *)

(** The scenarios of the specification, with [ALLOWED_BROADCASTERS = {}]
    and [BROADCAST_CHANNEL_IDS = ["C1", "C2"]]. *)
Example scenario_preview :
  invoke two_channels ∅ upper_excerpt (cmd "U1" (lit "hello")) always_ok
  = (Returned tt,
     {| sent := 0; failed := [];
        trace :=
          [Ack;
           Respond (lit "Preview only " ++ DASH ++ lit " nothing has been sent yet."
                    ++ LF ++ LF ++ lit "This message:" ++ LF ++ LF ++ lit "hello"
                    ++ LF ++ LF ++ lit "Would be sent to 2 channel(s):" ++ LF
                    ++ lit "C1, C2" ++ LF ++ LF ++ lit "If this looks correct, send:"
                    ++ LF ++ lit "`/partner_broadcast CONFIRM: hello`")] |}).
Proof. vm_compute. reflexivity. Qed.

Example scenario_all_sent :
  invoke two_channels ∅ upper_excerpt (cmd "U1" (lit "CONFIRM: hello")) always_ok
  = (Returned tt,
     {| sent := 2; failed := [];
        trace :=
          [Ack;
           PostMessage (lit "C1") (lit "hello"); Sleep SLEEP_MS;
           PostMessage (lit "C2") (lit "hello"); Sleep SLEEP_MS;
           Respond (lit "Broadcast complete. Sent to 2 channel(s).")] |}).
Proof. vm_compute. reflexivity. Qed.

Example scenario_one_failed :
  invoke two_channels ∅ upper_excerpt (cmd "U1" (lit "CONFIRM: hello")) (fails_on "C2")
  = (Returned tt,
     {| sent := 1; failed := [lit "C2"];
        trace :=
          [Ack;
           PostMessage (lit "C1") (lit "hello"); Sleep SLEEP_MS;
           PostMessage (lit "C2") (lit "hello");
           LogError (lit "Failed to post to C2: channel_not_found");
           Respond (lit "Broadcast complete. Sent to 1 channel(s). Failed on 1 channel(s): C2")] |}).
Proof. vm_compute. reflexivity. Qed.

(** The three spellings of the marker named by the specification, under
    any case table: all ASCII, so the table is not consulted. *)
Lemma marker_spellings unicode_upper :
  Forall (λ raw, is_confirm unicode_upper raw = true
                 ∧ text unicode_upper raw = lit "hi")
    [lit "confirm: hi"; lit "Confirm: hi"; lit "CONFIRM: hi"].
Proof. repeat constructor. Qed.

(** C6.  The argument "con", U+FB01, "rm:hi" is already stripped and
    starts with the marker under case-insensitive comparison: its first 7
    code points upper-case to "CONFIRM:", and "hi" follows them.  The
    handler takes it as confirmed, but its message text is "i", not "hi":
    8 code points are cut off, one more than the marker occupies, and "i"
    is what the channels receive. *)
Theorem ligature_marker_truncates_message :
  strip (lit "con" ++ LIG_FI ++ lit "rm:hi")
  = (lit "con" ++ LIG_FI ++ lit "rm:") ++ lit "hi"
  ∧ upper upper_excerpt (lit "con" ++ LIG_FI ++ lit "rm:") = confirm_prefix
  ∧ strip (lit "hi") = lit "hi"
  ∧ is_confirm upper_excerpt (lit "con" ++ LIG_FI ++ lit "rm:hi") = true
  ∧ text upper_excerpt (lit "con" ++ LIG_FI ++ lit "rm:hi") = lit "i"
  ∧ send_calls (events two_channels ∅ upper_excerpt
                  (cmd "U1" (lit "con" ++ LIG_FI ++ lit "rm:hi")) always_ok)
    = [(lit "C1", lit "i"); (lit "C2", lit "i")].
Proof. vm_compute. repeat split. Qed.

Lemma upper_excerpt_nonempty c : upper_excerpt c ≠ [].
Proof. unfold upper_excerpt. by repeat case_match. Qed.

Lemma confirmed_hello :
  confirmed_invocation two_channels ∅ upper_excerpt (cmd "U1" (lit "CONFIRM: hello")).
Proof. repeat split; try (vm_compute; reflexivity); vm_compute; discriminate. Defined.

Lemma preview_sends_nothing_witness :
  (user_is_allowed ∅ (lit "U1") = true
   ∧ text_raw (cmd "U1" (lit "  hello ")) ≠ []
   ∧ is_confirm upper_excerpt (text_raw (cmd "U1" (lit "  hello "))) = false
   ∧ two_channels ≠ [])
  ∧ replies_only
      (invoke two_channels ∅ upper_excerpt (cmd "U1" (lit "  hello ")) always_ok)
      (preview_message two_channels (lit "hello"))
  ∧ send_calls (events two_channels ∅ upper_excerpt
                  (cmd "U1" (lit "  hello ")) always_ok) = [].
Proof.
  assert (user_is_allowed ∅ (lit "U1") = true) as H1 by (vm_compute; reflexivity).
  assert (text_raw (cmd "U1" (lit "  hello ")) ≠ []) as H2 by (vm_compute; discriminate).
  assert (is_confirm upper_excerpt (text_raw (cmd "U1" (lit "  hello "))) = false)
    as H3 by (vm_compute; reflexivity).
  assert (two_channels ≠ []) as H4 by discriminate.
  split; [done|].
  destruct (preview_sends_nothing two_channels ∅ upper_excerpt
              (cmd "U1" (lit "  hello ")) always_ok H1 H2 H3 H4)
    as (_ & Hresp & Hsend & _).
  split; [exact Hresp|exact Hsend].
Defined.

Lemma unauthorized_user_rejected_witness :
  only_U2 ≠ ∅
  ∧ (lit "U1" ∉ only_U2)
  ∧ replies_only
      (invoke two_channels only_U2 upper_excerpt
         (cmd "U1" (lit "CONFIRM: hello")) always_ok)
      MSG_NOT_ALLOWED
  ∧ user_is_allowed ∅ (lit "U1") = true.
Proof.
  assert (only_U2 ≠ ∅) as H1 by (unfold only_U2; set_solver).
  assert (lit "U1" ∉ only_U2) as H2.
  { intros H%elem_of_singleton. discriminate H. }
  split_and!; [done|done| |].
  - apply (unauthorized_user_rejected two_channels only_U2 upper_excerpt);
      assumption.
  - by apply (unauthorized_user_rejected two_channels ∅ upper_excerpt).
Defined.

Lemma broadcast_accounting_witness :
  confirmed_invocation two_channels ∅ upper_excerpt (cmd "U1" (lit "CONFIRM: hello"))
  ∧ sent (final two_channels ∅ upper_excerpt
            (cmd "U1" (lit "CONFIRM: hello")) (fails_on "C2"))
    + length (failed (final two_channels ∅ upper_excerpt
                        (cmd "U1" (lit "CONFIRM: hello")) (fails_on "C2")))
    = length two_channels.
Proof.
  split; [exact confirmed_hello|].
  exact (proj1 (broadcast_accounting two_channels ∅ upper_excerpt
                  (cmd "U1" (lit "CONFIRM: hello")) (fails_on "C2")
                  confirmed_hello)).
Defined.

Lemma send_failures_isolated_witness :
  confirmed_invocation two_channels ∅ upper_excerpt (cmd "U1" (lit "CONFIRM: hello"))
  ∧ two_channels !! 0 = Some (lit "C1")
  ∧ fails_on "C1" 0 (lit "C1") (lit "hello")
    = Raised (SlackApiError (lit "channel_not_found"))
  ∧ send_calls (events two_channels ∅ upper_excerpt
                  (cmd "U1" (lit "CONFIRM: hello")) (fails_on "C1"))
    = [(lit "C1", lit "hello"); (lit "C2", lit "hello")]
  ∧ lit "C1" ∈ failed (final two_channels ∅ upper_excerpt
                         (cmd "U1" (lit "CONFIRM: hello")) (fails_on "C1")).
Proof.
  assert (fails_on "C1" 0 (lit "C1") (lit "hello")
          = Raised (SlackApiError (lit "channel_not_found"))) as Hfail
    by (vm_compute; reflexivity).
  destruct (send_failures_isolated two_channels ∅ upper_excerpt
              (cmd "U1" (lit "CONFIRM: hello")) (fails_on "C1"))
    as [_ Hloop].
  destruct (Hloop confirmed_hello) as [Hcalls Hrec].
  split_and!; [exact confirmed_hello|reflexivity|exact Hfail|exact Hcalls|].
  exact (Hrec 0 (lit "C1") _ eq_refl Hfail).
Defined.

Lemma sends_follow_channel_order_witness :
  confirmed_invocation two_channels ∅ upper_excerpt (cmd "U1" (lit "CONFIRM: hello"))
  ∧ send_calls (events two_channels ∅ upper_excerpt
                  (cmd "U1" (lit "CONFIRM: hello")) (fails_on "C1"))
    = [(lit "C1", lit "hello"); (lit "C2", lit "hello")].
Proof.
  split; [exact confirmed_hello|].
  exact (proj2 (sends_follow_channel_order two_channels ∅ upper_excerpt
                  (cmd "U1" (lit "CONFIRM: hello")) (fails_on "C1")
                  confirmed_hello)).
Defined.

Lemma no_channels_guard_witness :
  (user_is_allowed ∅ (lit "U1") = true
   ∧ text upper_excerpt (text_raw (cmd "U1" (lit "CONFIRM: hello"))) ≠ []
   ∧ @nil pystr = [])
  ∧ replies_only
      (invoke [] ∅ upper_excerpt (cmd "U1" (lit "CONFIRM: hello")) always_ok)
      MSG_NO_CHANNELS
  ∧ replies_only
      (invoke [] ∅ upper_excerpt (cmd "U1" (lit "hello")) always_ok)
      MSG_NO_CHANNELS.
Proof.
  assert (user_is_allowed ∅ (lit "U1") = true) as H1 by (vm_compute; reflexivity).
  assert (text upper_excerpt (text_raw (cmd "U1" (lit "CONFIRM: hello"))) ≠ [])
    as H2 by (vm_compute; discriminate).
  assert (text upper_excerpt (text_raw (cmd "U1" (lit "hello"))) ≠ [])
    as H3 by (vm_compute; discriminate).
  split_and!; [exact H1|exact H2|reflexivity| |].
  - exact (proj1 (no_channels_guard [] ∅ upper_excerpt
                    (cmd "U1" (lit "CONFIRM: hello")) always_ok H1 H2 eq_refl)).
  - exact (proj1 (no_channels_guard [] ∅ upper_excerpt
                    (cmd "U1" (lit "hello")) always_ok H1 H3 eq_refl)).
Defined.

(** C8, as stated, fails when a send that is not the last one raises: with
    two channels and a client that rejects the call for "C1", the call for
    "C2" follows the call for "C1" with only the log line in between. *)
Lemma failed_send_skips_pause :
  confirmed_invocation two_channels ∅ upper_excerpt (cmd "U1" (lit "CONFIRM: hello"))
  ∧ length two_channels = 2
  ∧ events two_channels ∅ upper_excerpt
      (cmd "U1" (lit "CONFIRM: hello")) (fails_on "C1")
    = [Ack;
       PostMessage (lit "C1") (lit "hello");
       LogError (lit "Failed to post to C1: channel_not_found");
       PostMessage (lit "C2") (lit "hello"); Sleep SLEEP_MS;
       Respond (lit "Broadcast complete. Sent to 1 channel(s). Failed on 1 channel(s): C1")]
  ∧ delay_between_sends
      (events two_channels ∅ upper_excerpt
         (cmd "U1" (lit "CONFIRM: hello")) (fails_on "C1")) = false.
Proof.
  split; [exact confirmed_hello|]. vm_compute. repeat split.
Qed.

Lemma pause_after_each_successful_send_witness :
  confirmed_invocation two_channels ∅ upper_excerpt (cmd "U1" (lit "CONFIRM: hello"))
  ∧ sleeps (events two_channels ∅ upper_excerpt
              (cmd "U1" (lit "CONFIRM: hello")) (fails_on "C1"))
    = sent (final two_channels ∅ upper_excerpt
              (cmd "U1" (lit "CONFIRM: hello")) (fails_on "C1"))
  ∧ delay_between_sends
      (events two_channels ∅ upper_excerpt
         (cmd "U1" (lit "CONFIRM: hello")) (fails_on "C2")) = true.
Proof.
  split; [exact confirmed_hello|]. split.
  - exact (proj1 (proj2 (pause_after_each_successful_send two_channels ∅
                           upper_excerpt (cmd "U1" (lit "CONFIRM: hello"))
                           (fails_on "C1") confirmed_hello))).
  - apply (pause_after_each_successful_send two_channels ∅ upper_excerpt
             (cmd "U1" (lit "CONFIRM: hello")) (fails_on "C2") confirmed_hello).
    intros [|[|k]] c Hk Hlen; simpl in *; [|lia|lia].
    injection Hk as <-. reflexivity.
Defined.

Lemma empty_input_messages_witness :
  user_is_allowed ∅ (lit "U1") = true
  ∧ replies_only
      (invoke two_channels ∅ upper_excerpt (cmd "U1" (lit "   ")) always_ok)
      MSG_USAGE
  ∧ replies_only
      (invoke two_channels ∅ upper_excerpt
         {| user_id := lit "U1"; text_field := None |} always_ok)
      MSG_USAGE
  ∧ replies_only
      (invoke two_channels ∅ upper_excerpt (cmd "U1" (lit "CONFIRM:")) always_ok)
      MSG_EMPTY_AFTER_CONFIRM
  ∧ replies_only
      (invoke two_channels ∅ upper_excerpt (cmd "U1" (lit " confirm:  ")) always_ok)
      MSG_EMPTY_AFTER_CONFIRM.
Proof.
  assert (user_is_allowed ∅ (lit "U1") = true) as H1 by (vm_compute; reflexivity).
  split_and!; [exact H1| | | |].
  - by apply (empty_input_messages two_channels ∅ upper_excerpt
                (cmd "U1" (lit "   ")) always_ok H1).
  - by apply (empty_input_messages two_channels ∅ upper_excerpt
                {| user_id := lit "U1"; text_field := None |} always_ok H1).
  - destruct (empty_input_messages two_channels ∅ upper_excerpt
                (cmd "U1" (lit "CONFIRM:")) always_ok H1)
      as (_ & _ & Halone & _).
    exact (proj1 (Halone eq_refl)).
  - destruct (empty_input_messages two_channels ∅ upper_excerpt
                (cmd "U1" (lit " confirm:  ")) always_ok H1)
      as (_ & Hmarker & _).
    exact (proj1 (Hmarker eq_refl eq_refl)).
Defined.

(** C10, as stated, fails on "con", U+FB01, "rm: hi": the message text
    is the text after the marker, "hi", although upper-casing turns the 7
    code points of the matched prefix into 8; the code point cut off with
    the prefix is the space. *)
Lemma ligature_before_space_keeps_message :
  strip ((lit "con" ++ LIG_FI ++ lit "rm:") ++ lit " hi")
  = (lit "con" ++ LIG_FI ++ lit "rm:") ++ lit " hi"
  ∧ upper upper_excerpt (lit "con" ++ LIG_FI ++ lit "rm:") = confirm_prefix
  ∧ is_confirm upper_excerpt ((lit "con" ++ LIG_FI ++ lit "rm:") ++ lit " hi") = true
  ∧ text upper_excerpt ((lit "con" ++ LIG_FI ++ lit "rm:") ++ lit " hi")
    = strip (lit " hi")
  ∧ length (upper upper_excerpt (lit "con" ++ LIG_FI ++ lit "rm:"))
    ≠ length (lit "con" ++ LIG_FI ++ lit "rm:").
Proof. vm_compute. split_and!; try reflexivity. discriminate. Qed.

Lemma marker_stripping_positional_witness :
  (∀ c, upper_excerpt c ≠ [])
  ∧ text upper_excerpt (lit "Confirm:  hi there ") = lit "hi there"
  ∧ text upper_excerpt (lit "con" ++ LIG_FI ++ lit "rm:hi") = lit "i"
  ∧ text upper_excerpt ((lit "con" ++ LIG_FI ++ lit "rm:") ++ lit "hi")
    ≠ strip (lit "hi")
  ∧ ∀ r, text upper_excerpt ((lit "conf" ++ [0x131%N] ++ lit "rm:") ++ r) = strip r.
Proof.
  destruct (marker_stripping_positional upper_excerpt upper_excerpt_nonempty)
    as [Hpos Hcut].
  split_and!.
  - exact upper_excerpt_nonempty.
  - exact (proj2 (Hpos (lit "Confirm:  hi there ") eq_refl)).
  - exact (proj2 (Hpos (lit "con" ++ LIG_FI ++ lit "rm:hi") eq_refl)).
  - destruct (Hcut (lit "con" ++ LIG_FI ++ lit "rm:") (lit "hi") eq_refl)
      as (_ & Hiff & _).
    intros Heq. apply Hiff in Heq. vm_compute in Heq.
    inversion Heq as [|? ? Hspace _]. discriminate Hspace.
  - intros r.
    destruct (Hcut (lit "conf" ++ [0x131%N] ++ lit "rm:") r eq_refl)
      as (_ & _ & Hkeep).
    exact (Hkeep eq_refl).
Defined.

(** ** Reading the configuration *)

Lemma split_nonempty sep s : split sep s ≠ [].
Proof.
  destruct s as [|c s]; [done|]. simpl.
  destruct (c =? sep)%N; [done|]. by destruct (split sep s).
Qed.

Lemma split_app sep a b :
  split sep (a ++ sep :: b) = split sep a ++ split sep b.
Proof.
  induction a as [|c a IH]; simpl.
  - by rewrite N.eqb_refl.
  - rewrite IH. destruct (c =? sep)%N; [done|].
    pose proof (split_nonempty sep a) as Hne. by destruct (split sep a).
Qed.

Lemma split_no_sep sep s : Forall (λ piece, sep ∉ piece) (split sep s).
Proof.
  induction s as [|c s IH]; simpl.
  - constructor; [|constructor]. apply not_elem_of_nil.
  - destruct (c =? sep)%N eqn:E.
    + constructor; [apply not_elem_of_nil|exact IH].
    + apply N.eqb_neq in E. destruct (split sep s) as [|p ps].
      * constructor; [|constructor].
        intros H%list_elem_of_singleton. congruence.
      * inversion IH as [|? ? Hp Hps]; subst. constructor; [|exact Hps].
        intros [->|H]%elem_of_cons; [done|by apply Hp].
Qed.

Lemma split_whole sep s : sep ∉ s → split sep s = [s].
Proof.
  induction s as [|c s IH]; [done|]. intros Hc. simpl.
  apply not_elem_of_cons in Hc as [Hne Hs].
  destruct (N.eqb_spec c sep) as [->|_]; [done|]. by rewrite IH.
Qed.

Lemma lstrip_subset s c : c ∈ lstrip s → c ∈ s.
Proof.
  destruct (lstrip_suffix s) as (sp & Hs & _). intros H.
  rewrite Hs. apply elem_of_app. by right.
Qed.

Lemma strip_subset s c : c ∈ strip s → c ∈ s.
Proof.
  unfold strip, rstrip. intros H.
  apply lstrip_subset. apply list_elem_of_In, in_rev, list_elem_of_In.
  apply lstrip_subset. by apply list_elem_of_In, in_rev, list_elem_of_In in H.
Qed.

Lemma kept_nil_iff x : kept x = [] ↔ Forall (λ c, isspace c = true) x.
Proof.
  rewrite <- strip_nil_iff. unfold kept. by destruct (strip x).
Qed.

Lemma kept_space_l c x : isspace c = true → kept (c :: x) = kept x.
Proof. intros Hc. unfold kept. by rewrite (strip_space_l c x Hc). Qed.

Lemma id_list_pieces s :
  id_list (Some s) = flat_map kept (split COMMA s).
Proof. reflexivity. Qed.

Lemma id_list_comma a b :
  id_list (Some (a ++ COMMA :: b)) = id_list (Some a) ++ id_list (Some b).
Proof. by rewrite !id_list_pieces, split_app, flat_map_app. Qed.

Lemma id_list_space_l c s :
  isspace c = true → id_list (Some (c :: s)) = id_list (Some s).
Proof.
  intros Hc. rewrite !id_list_pieces. simpl.
  destruct (N.eqb_spec c COMMA) as [->|_]; [done|].
  pose proof (split_nonempty COMMA s) as Hne.
  destruct (split COMMA s) as [|p ps]; [done|]. simpl.
  by rewrite kept_space_l.
Qed.

Lemma id_list_single id : well_formed_id id → id_list (Some id) = [id].
Proof.
  intros (Hne & Hstrip & Hcomma). rewrite id_list_pieces, split_whole by done.
  simpl. unfold kept. rewrite Hstrip. destruct id; [done|]. by rewrite app_nil_r.
Qed.

Lemma id_list_well_formed value : Forall well_formed_id (id_list value).
Proof.
  apply Forall_forall. intros id Hin.
  unfold id_list in Hin. apply list_elem_of_In, in_flat_map in Hin as (x & Hx & Hin).
  pose proof (split_no_sep COMMA (default [] value)) as Hsep.
  rewrite Forall_forall in Hsep. apply list_elem_of_In, Hsep in Hx.
  unfold kept in Hin. destruct (strip x) as [|c r] eqn:E; [done|].
  destruct Hin as [<-|[]]. rewrite <- E. split_and!.
  - by rewrite E.
  - apply strip_idem.
  - intros H. by apply Hx, strip_subset.
Qed.

Lemma id_list_pad pad s :
  Forall (λ c, isspace c = true) pad →
  id_list (Some (pad ++ s)) = id_list (Some s).
Proof.
  induction 1 as [|c pad Hc _ IH]; [done|].
  simpl app. by rewrite id_list_space_l.
Qed.

Lemma id_list_join (pad : pystr) ids :
  Forall (λ c, isspace c = true) pad →
  Forall well_formed_id ids →
  id_list (Some (join (COMMA :: pad) ids)) = ids.
Proof.
  intros Hpad. induction ids as [|id ids IH]; intros Hids; [done|].
  inversion Hids as [|? ? Hid Hrest]; subst.
  destruct ids as [|id' rest]; [by apply id_list_single|].
  change (join (COMMA :: pad) (id :: id' :: rest))
    with (id ++ COMMA :: (pad ++ join (COMMA :: pad) (id' :: rest))).
  rewrite id_list_comma, id_list_single by done. f_equal.
  rewrite <- (IH Hrest) at 2. by apply id_list_pad.
Qed.

Lemma id_list_nil_iff s :
  id_list (Some s) = [] ↔ Forall (λ c, c = COMMA ∨ isspace c = true) s.
Proof.
  rewrite id_list_pieces. induction s as [|c s IH]; [by split; [constructor|]|].
  simpl. destruct (N.eqb_spec c COMMA) as [->|Hc].
  - simpl. rewrite IH. split; [constructor; auto|]. by inversion 1.
  - pose proof (split_nonempty COMMA s) as Hne.
    destruct (split COMMA s) as [|p ps]; [done|]. simpl in *.
    rewrite !app_nil, !kept_nil_iff in *. split.
    + intros [Hcp Hps]. inversion Hcp; subst.
      constructor; [by right|]. by apply IH.
    + inversion 1 as [|? ? [?|Hsp] Hs]; subst; [done|].
      apply IH in Hs as [Hp Hps]. split; [by constructor|done].
Qed.

Lemma id_list_blank value :
  id_list value = []
  ↔ Forall (λ c, c = COMMA ∨ isspace c = true) (default [] value).
Proof.
  destruct value as [s|]; [apply id_list_nil_iff|].
  split; [constructor|done].
Qed.

Lemma user_is_allowed_of_list l u :
  user_is_allowed (list_to_set l) u = true ↔ l = [] ∨ u ∈ l.
Proof.
  unfold user_is_allowed.
  destruct (decide (list_to_set l =@{gset pystr} ∅)) as [E|E].
  - split; [|done]. intros _. left. destruct l as [|x l]; [done|].
    exfalso. assert (x ∈@{gset pystr} ∅) as H; [|set_solver].
    rewrite <- E. apply elem_of_list_to_set. by left.
  - rewrite bool_decide_eq_true, elem_of_list_to_set. split; [by right|].
    intros [->|H]; [|done]. by rewrite list_to_set_nil in E.
Qed.

Lemma load_inr environ cfg :
  Config.load environ = inr cfg →
  environ !! lit "SLACK_BOT_TOKEN" = Some (Config.SLACK_BOT_TOKEN cfg)
  ∧ environ !! lit "SLACK_APP_TOKEN" = Some (Config.SLACK_APP_TOKEN cfg)
  ∧ Config.BROADCAST_CHANNEL_IDS cfg
    = id_list (environ !! lit "BROADCAST_CHANNEL_IDS")
  ∧ Config.ALLOWED_BROADCASTERS cfg
    = list_to_set (id_list (environ !! lit "ALLOWED_BROADCASTERS")).
Proof.
  unfold Config.load.
  destruct (environ !! lit "SLACK_BOT_TOKEN") as [bot|]; [|done].
  destruct (environ !! lit "SLACK_APP_TOKEN") as [app|]; [|done].
  by intros [= <-].
Qed.

(** X8.  Every identifier read from an environment value is non-empty,
    has no white space at either end and contains no comma; so joining
    the list with ", ", as the preview does for the channels, and reading
    the result back gives the same list. *)
Theorem id_list_entries_well_formed value :
  Forall well_formed_id (id_list value)
  ∧ id_list (Some (join (lit ", ") (id_list value))) = id_list value.
Proof.
  split; [apply id_list_well_formed|].
  apply (id_list_join (lit " ")); [by repeat constructor|].
  apply id_list_well_formed.
Qed.

(** X9.  Reading distributes over the comma: the identifiers of
    [a + "," + b] are those of [a] followed by those of [b]. *)
Theorem id_list_concatenates a b :
  id_list (Some (a ++ lit "," ++ b)) = id_list (Some a) ++ id_list (Some b).
Proof. apply id_list_comma. Qed.

(** X10.  A list of well-formed identifiers, joined with commas, each
    comma followed by any run of white space, is read back unchanged, in
    the same order and with its repetitions. *)
Theorem id_list_round_trip pad ids :
  Forall (λ c, isspace c = true) pad →
  Forall well_formed_id ids →
  id_list (Some (join (lit "," ++ pad) ids)) = ids.
Proof. apply id_list_join. Qed.

(** X11.  The list read is empty exactly when the variable is unset or
    its value holds nothing but commas and white space. *)
Theorem id_list_empty_iff value :
  id_list value = []
  ↔ Forall (λ c, c = COMMA ∨ isspace c = true) (default [] value).
Proof. apply id_list_blank. Qed.

(** X12.  With the configuration loaded from the environment, a user is
    allowed exactly when [ALLOWED_BROADCASTERS] yields no identifier or
    the user's identifier is one of those it yields. *)
Theorem loaded_allow_list environ cfg u :
  Config.load environ = inr cfg →
  user_is_allowed (Config.ALLOWED_BROADCASTERS cfg) u = true
  ↔ id_list (environ !! lit "ALLOWED_BROADCASTERS") = []
    ∨ u ∈ id_list (environ !! lit "ALLOWED_BROADCASTERS").
Proof.
  intros (_ & _ & _ & ->)%load_inr.
  apply user_is_allowed_of_list.
Qed.

(** X14.  With the tokens set and both lists unset or blank, every user
    is allowed and every invocation that carries a message text, with the
    marker or without, is answered with the guidance about
    [BROADCAST_CHANNEL_IDS]; nothing is sent. *)
Theorem blank_lists_disable_sending environ cfg unicode_upper body client :
  Config.load environ = inr cfg →
  Forall (λ c, c = COMMA ∨ isspace c = true)
    (default [] (environ !! lit "BROADCAST_CHANNEL_IDS")) →
  Forall (λ c, c = COMMA ∨ isspace c = true)
    (default [] (environ !! lit "ALLOWED_BROADCASTERS")) →
  text unicode_upper (text_raw body) ≠ [] →
  user_is_allowed (Config.ALLOWED_BROADCASTERS cfg) (user_id body) = true
  ∧ replies_only
      (invoke (Config.BROADCAST_CHANNEL_IDS cfg) (Config.ALLOWED_BROADCASTERS cfg)
         unicode_upper body client)
      MSG_NO_CHANNELS
  ∧ send_calls
      (events (Config.BROADCAST_CHANNEL_IDS cfg) (Config.ALLOWED_BROADCASTERS cfg)
         unicode_upper body client) = [].
Proof.
  intros (_ & _ & Hch & Hallowed)%load_inr Hblank1 Hblank2 Htext.
  apply id_list_blank in Hblank1, Hblank2.
  pose proof (eq_trans Hch Hblank1) as Hch'.
  pose proof (eq_trans Hallowed (f_equal list_to_set Hblank2)) as Hallowed'.
  assert (user_is_allowed (Config.ALLOWED_BROADCASTERS cfg) (user_id body) = true)
    as Hu.
  { rewrite Hallowed'. apply user_is_allowed_of_list. by left. }
  pose proof (invoke_no_channels _ _ unicode_upper body client Hu Htext Hch') as Hrun.
  split_and!; [exact Hu|exact Hrun|].
  by rewrite (replies_only_events _ _ _ _ _ _ Hrun).
Qed.

(** ** Concrete runs of the further properties *)

Example load_sample :
  Config.load sample_environ
  = inr {| Config.SLACK_BOT_TOKEN := lit "xoxb-1";
           Config.SLACK_APP_TOKEN := lit "xapp-1";
           Config.BROADCAST_CHANNEL_IDS := two_channels;
           Config.ALLOWED_BROADCASTERS := only_U2 |}.
Proof. reflexivity. Qed.

Lemma sends_only_when_confirmed_witness :
  (lit "C2", lit "hello")
    ∈ send_calls (events two_channels ∅ upper_excerpt
                    (cmd "U1" (lit "CONFIRM: hello")) always_ok)
  ∧ confirmed_invocation two_channels ∅ upper_excerpt
      (cmd "U1" (lit "CONFIRM: hello"))
  ∧ lit "C2" ∈ two_channels.
Proof.
  assert ((lit "C2", lit "hello")
            ∈ send_calls (events two_channels ∅ upper_excerpt
                            (cmd "U1" (lit "CONFIRM: hello")) always_ok)) as Hin.
  { vm_compute. repeat constructor. }
  destruct (sends_only_when_confirmed two_channels ∅ upper_excerpt
              (cmd "U1" (lit "CONFIRM: hello")) always_ok _ _ Hin)
    as (Hc & Hch & _).
  by split_and!.
Defined.

Lemma message_text_is_stripped_witness :
  head (text upper_excerpt (text_raw (cmd "U1" (lit "  CONFIRM:   hi there  "))))
  = Some 104%N
  ∧ isspace 104 = false.
Proof.
  assert (head (text upper_excerpt
                  (text_raw (cmd "U1" (lit "  CONFIRM:   hi there  "))))
          = Some 104%N) as Hhead by (vm_compute; reflexivity).
  split; [exact Hhead|].
  exact (proj1 (message_text_is_stripped upper_excerpt
                  (cmd "U1" (lit "  CONFIRM:   hi there  ")) 104%N
                  (or_introl Hhead))).
Defined.

Lemma preview_confirm_round_trip_witness :
  (user_is_allowed ∅ (lit "U1") = true
   ∧ text_raw (cmd "U1" (lit "  hello ")) ≠ []
   ∧ two_channels ≠ [])
  ∧ send_calls
      (events two_channels ∅ upper_excerpt
         {| user_id := lit "U1";
            text_field := Some (lit "CONFIRM: "
                                ++ text_raw (cmd "U1" (lit "  hello "))) |}
         always_ok)
    = [(lit "C1", lit "hello"); (lit "C2", lit "hello")].
Proof.
  assert (user_is_allowed ∅ (lit "U1") = true) as H1 by (vm_compute; reflexivity).
  assert (text_raw (cmd "U1" (lit "  hello ")) ≠ []) as H2
    by (vm_compute; discriminate).
  assert (two_channels ≠ []) as H3 by discriminate.
  split; [done|].
  exact (proj2 (proj2 (preview_confirm_round_trip two_channels ∅ upper_excerpt
                         (cmd "U1" (lit "  hello ")) always_ok H1 H2 H3))).
Defined.

Lemma all_sends_succeed_witness :
  confirmed_invocation two_channels ∅ upper_excerpt (cmd "U1" (lit "CONFIRM: hello"))
  ∧ (∀ k c, two_channels !! k = Some c →
            always_ok k c (lit "hello") = Returned tt)
  ∧ responses (events two_channels ∅ upper_excerpt
                 (cmd "U1" (lit "CONFIRM: hello")) always_ok)
    = [lit "Broadcast complete. Sent to 2 channel(s)."].
Proof.
  assert (∀ k c, two_channels !! k = Some c →
                 always_ok k c (lit "hello") = Returned tt) as Hok by done.
  split_and!; [exact confirmed_hello|exact Hok|].
  unfold events.
  by rewrite (all_sends_succeed two_channels ∅ upper_excerpt
                (cmd "U1" (lit "CONFIRM: hello")) always_ok confirmed_hello Hok).
Defined.

Lemma all_sends_fail_witness :
  confirmed_invocation two_channels ∅ upper_excerpt (cmd "U1" (lit "CONFIRM: hello"))
  ∧ (∀ k c, two_channels !! k = Some c →
            ∃ x, always_fails k c (lit "hello") = Raised x)
  ∧ failed (final two_channels ∅ upper_excerpt
              (cmd "U1" (lit "CONFIRM: hello")) always_fails)
    = two_channels.
Proof.
  assert (∀ k c, two_channels !! k = Some c →
                 ∃ x, always_fails k c (lit "hello") = Raised x) as Hall
    by (intros; by eexists).
  split_and!; [exact confirmed_hello|exact Hall|].
  exact (proj1 (proj2 (all_sends_fail two_channels ∅ upper_excerpt
                         (cmd "U1" (lit "CONFIRM: hello")) always_fails
                         confirmed_hello Hall))).
Defined.

Lemma failed_lists_raising_channels_witness :
  confirmed_invocation two_channels ∅ upper_excerpt (cmd "U1" (lit "CONFIRM: hello"))
  ∧ failed (final two_channels ∅ upper_excerpt
              (cmd "U1" (lit "CONFIRM: hello")) (fails_on "C2"))
    = raised_channels (fails_on "C2") (lit "hello") 0 two_channels.
Proof.
  split; [exact confirmed_hello|].
  exact (proj1 (failed_lists_raising_channels two_channels ∅ upper_excerpt
                  (cmd "U1" (lit "CONFIRM: hello")) (fails_on "C2")
                  confirmed_hello)).
Defined.

Lemma two_channels_well_formed : Forall well_formed_id two_channels.
Proof.
  repeat constructor; try discriminate;
    intros H; repeat (apply elem_of_cons in H as [H|H]; [discriminate H|]);
    by apply elem_of_nil in H.
Defined.

Lemma id_list_round_trip_witness :
  Forall (λ c, isspace c = true) (lit "  ")
  ∧ Forall well_formed_id two_channels
  ∧ id_list (Some (lit "C1,  C2")) = two_channels.
Proof.
  assert (Forall (λ c, isspace c = true) (lit "  ")) as Hpad
    by (by repeat constructor).
  split_and!; [exact Hpad|exact two_channels_well_formed|].
  exact (id_list_round_trip (lit "  ") two_channels Hpad two_channels_well_formed).
Defined.

Lemma loaded_allow_list_witness :
  Config.load sample_environ
  = inr {| Config.SLACK_BOT_TOKEN := lit "xoxb-1";
           Config.SLACK_APP_TOKEN := lit "xapp-1";
           Config.BROADCAST_CHANNEL_IDS := two_channels;
           Config.ALLOWED_BROADCASTERS := only_U2 |}
  ∧ user_is_allowed only_U2 (lit "U2") = true.
Proof.
  assert (Config.load sample_environ
          = inr {| Config.SLACK_BOT_TOKEN := lit "xoxb-1";
                   Config.SLACK_APP_TOKEN := lit "xapp-1";
                   Config.BROADCAST_CHANNEL_IDS := two_channels;
                   Config.ALLOWED_BROADCASTERS := only_U2 |}) as Hload
    by reflexivity.
  split; [exact Hload|].
  apply (loaded_allow_list sample_environ _ (lit "U2") Hload).
  right. vm_compute. repeat constructor.
Defined.

Lemma blank_lists_disable_sending_witness :
  Config.load blank_environ
  = inr {| Config.SLACK_BOT_TOKEN := lit "xoxb-1";
           Config.SLACK_APP_TOKEN := lit "xapp-1";
           Config.BROADCAST_CHANNEL_IDS := [];
           Config.ALLOWED_BROADCASTERS := ∅ |}
  ∧ text upper_excerpt (text_raw (cmd "U1" (lit "CONFIRM: hello"))) ≠ []
  ∧ replies_only
      (invoke [] ∅ upper_excerpt (cmd "U1" (lit "CONFIRM: hello")) always_ok)
      MSG_NO_CHANNELS.
Proof.
  assert (Config.load blank_environ
          = inr {| Config.SLACK_BOT_TOKEN := lit "xoxb-1";
                   Config.SLACK_APP_TOKEN := lit "xapp-1";
                   Config.BROADCAST_CHANNEL_IDS := [];
                   Config.ALLOWED_BROADCASTERS := ∅ |}) as Hload
    by reflexivity.
  assert (text upper_excerpt (text_raw (cmd "U1" (lit "CONFIRM: hello"))) ≠ [])
    as Htext by (vm_compute; discriminate).
  split_and!; [exact Hload|exact Htext|].
  apply (blank_lists_disable_sending blank_environ _ upper_excerpt
           (cmd "U1" (lit "CONFIRM: hello")) always_ok Hload); [| |exact Htext].
  - constructor.
  - constructor; [by right|]. constructor; [by left|].
    constructor; [by right|constructor].
Defined.
